(** * imu_3dm_gx3: driver for the Microstrain 3DM-GX3-25

    A shallow embedding of [src/imu_3dm_gx3.cc]: the frame codec
    ([validate_checksum], [extract_float], [extract_int]), the decoding of a
    79-byte continuous frame, the start-up handshake and the streaming loop
    of [main], followed by the properties of the driver's specification. *)

From Stdlib Require Import ZArith List Lia Bool String.
From Stdlib Require Import Strings.Byte Floats.SpecFloat.
From Stdlib Require Import Strings.Ascii Sorting.Permutation.
Import ListNotations.
Local Open Scope Z_scope.

(* ===================================================================== *)
(** * Part I: definitions                                                  *)
(* ===================================================================== *)

(** ** Bytes and C integer types *)

(** [unsigned char] *)
Definition byte := Byte.byte.

(** value of an [unsigned char] after integer promotion *)
Definition u8 (b : byte) : Z := Z.of_N (Byte.to_N b).

(** conversion of an [int] to [unsigned char] *)
Definition byte_of_Z (z : Z) : byte :=
  match Byte.of_N (Z.to_N (z mod 256)) with
  | Some b => b
  | None => x00
  end.

(** conversion to [unsigned short] (16 bits, wraps around) *)
Definition to_ushort (z : Z) : Z := z mod 65536.

(** conversion of a 32-bit pattern to [int] (two's complement) *)
Definition to_int (z : Z) : Z :=
  let u := z mod 4294967296 in
  if u <? 2147483648 then u else u - 4294967296.

(** [#define]s of the driver *)
Definition REPLY_LENGTH : Z := 4.
Definition STOP_CMD_LENGTH : Z := 3.
Definition MODE_CMD_LENGTH : Z := 4.
Definition DATA_LENGTH : Z := 79.

(** [data[i]]: reading outside the array is undefined behaviour, [None] *)
Definition index (data : list byte) (i : Z) : option byte :=
  if i <? 0 then None else nth_error data (Z.to_nat i).

(** [data[i] = b] on an array *)
Fixpoint poke (data : list byte) (i : nat) (b : byte) : list byte :=
  match data, i with
  | [], _ => []
  | _ :: t, O => b :: t
  | x :: t, S i' => x :: poke t i' b
  end.

(** ** FrameCodec: [validate_checksum] *)

(** The loop [for (unsigned short i = 0; i < length - 2; i++) chksum += data[i];]
    [i] and [chksum] are [unsigned short]; the comparison is made on [int]. *)
Fixpoint checksum_loop (fuel : nat) (data : list byte) (length i chksum : Z)
  : option Z :=
  match fuel with
  | O => None
  | S fuel' =>
      if i <? length - 2 then
        match index data i with
        | None => None
        | Some b =>
            checksum_loop fuel' data length (to_ushort (i + 1))
                          (to_ushort (chksum + u8 b))
        end
      else Some chksum
  end.

(** an [unsigned short] counter leaves the loop within 65536 steps *)
Definition loop_fuel : nat := Z.to_nat 65537.

Definition validate_checksum (data : list byte) (length : Z) : option bool :=
  match checksum_loop loop_fuel data length 0 0 with
  | None => None
  | Some chksum =>
      match index data (length - 2), index data (length - 1) with
      | Some hi, Some lo =>
          let rchksum := to_ushort (Z.shiftl (u8 hi) 8) in
          let rchksum := to_ushort (rchksum + u8 lo) in
          Some (chksum =? rchksum)
      | _, _ => None
      end
  end.

(** ** FrameCodec: [extract_float] and [extract_int] *)

(** Byte order of the host: which address of a 4-byte scalar holds its
    least significant byte. *)
Inductive byte_order := LittleEndian | BigEndian.

(** The 32-bit pattern held by a 4-byte object, given its bytes at
    increasing addresses. *)
Definition word_of_object (host : byte_order) (obj : list byte) : Z :=
  match obj with
  | [m0; m1; m2; m3] =>
      match host with
      | LittleEndian =>
          u8 m0 + 256 * u8 m1 + 65536 * u8 m2 + 16777216 * u8 m3
      | BigEndian =>
          u8 m3 + 256 * u8 m2 + 65536 * u8 m1 + 16777216 * u8 m0
      end
  | _ => 0
  end.

(** A C [float] is kept as the 32-bit pattern of its object. *)
Definition float := Z.

(** the local [tmp], before the four stores *)
Definition tmp_object : list byte := [x00; x00; x00; x00].

(** the four stores [*((unsigned char* )(&tmp) + 3) = *(addr); ...] *)
Definition reversed_copy (data : list byte) (addr : Z) : option (list byte) :=
  match index data addr, index data (addr + 1),
        index data (addr + 2), index data (addr + 3) with
  | Some a0, Some a1, Some a2, Some a3 =>
      let tmp := poke tmp_object 3 a0 in
      let tmp := poke tmp 2 a1 in
      let tmp := poke tmp 1 a2 in
      let tmp := poke tmp 0 a3 in
      Some tmp
  | _, _, _, _ => None
  end.

(** [extract_float(&(data[addr]))] *)
Definition extract_float (host : byte_order) (data : list byte) (addr : Z)
  : option float :=
  option_map (word_of_object host) (reversed_copy data addr).

(** [extract_int(&(data[addr]))] *)
Definition extract_int (host : byte_order) (data : list byte) (addr : Z)
  : option Z :=
  option_map (fun tmp => to_int (word_of_object host tmp))
             (reversed_copy data addr).

(** *** The wording of the specification, for comparison *)

(** 16-bit sum of a sequence of bytes *)
Definition byte_sum (l : list byte) : Z :=
  fold_right (fun b acc => u8 b + acc) 0 l.

(** big-endian encoding of a 16-bit value *)
Definition encode_be16 (v : Z) : list byte :=
  [byte_of_Z (v / 256); byte_of_Z v].

(** big-endian encoding of a 32-bit pattern: byte 0 is the most significant *)
Definition encode_be32 (v : Z) : list byte :=
  [byte_of_Z (v / 16777216); byte_of_Z (v / 65536);
   byte_of_Z (v / 256); byte_of_Z v].

(** big-endian reading of four bytes *)
Definition decode_be32 (l : list byte) : Z :=
  match l with
  | [b0; b1; b2; b3] =>
      16777216 * u8 b0 + 65536 * u8 b1 + 256 * u8 b2 + u8 b3
  | _ => 0
  end.

(** the bytes [data[k .. k+n-1]] *)
Definition slice (data : list byte) (k n : nat) : list byte :=
  firstn n (skipn k data).

(** ** IEEE-754 arithmetic

    A [double] is a binary64 datum ([prec = 53], [emax = 1024]); a [float]
    is the binary32 datum that its 32-bit pattern denotes. *)

Definition double := spec_float.

(** the binary32 datum denoted by a 32-bit pattern *)
Definition float_value (f : float) : spec_float :=
  let s := Z.testbit f 31 in
  let e := (f / 8388608) mod 256 in
  let m := f mod 8388608 in
  if e =? 0 then
    match m with
    | Zpos p => S754_finite s p (-149)
    | _ => S754_zero s
    end
  else if e =? 255 then
    if m =? 0 then S754_infinity s else S754_nan
  else
    match m + 8388608 with
    | Zpos p => S754_finite s p (e - 150)
    | _ => S754_nan
    end.

(** implicit conversion [float] to [double] *)
Definition double_of_float (f : float) : double :=
  match float_value f with
  | S754_finite s m e => binary_round 53 1024 s m e
  | v => v
  end.

(** implicit conversion [int] to [double] *)
Definition double_of_int (n : Z) : double :=
  binary_normalize 53 1024 n 0 false.

Definition double_mul : double -> double -> double := SFmul 53 1024.
Definition double_div : double -> double -> double := SFdiv 53 1024.

(** [#define GRAVITY_CONSTANT 9.807]: the literal is 0x1.39d2f1a9fbe77p+3 *)
Definition GRAVITY_CONSTANT : double :=
  S754_finite false 5520850193202807 (-49).

(** the literal [62500.0] *)
Definition TICKS_PER_SECOND : double :=
  S754_finite false 8589934592000000 (-37).

(** the literals [0.0] and [0.1] *)
Definition double_zero : double := S754_zero false.
Definition double_tenth : double :=
  S754_finite false 7205759403792794 (-56).

(** ** Collaborators: ROS time and Eigen geometry

    [ros::Time], [ros::Duration] and [Eigen::Quaternion<double>] are library
    code; the driver is written against their interfaces. *)

Class RosTime := {
  Time : Type;
  Duration : Type;
  Time_zero : Time;                               (* ros::Time() *)
  Duration_of_double : double -> Duration;        (* ros::Duration(double) *)
  Time_plus : Time -> Duration -> Time;           (* operator+ *)
  Time_minus : Time -> Duration -> Time           (* operator- *)
}.

(** [geometry_msgs::Vector3] and [geometry_msgs::Quaternion] *)
Record Vector3 := { v_x : double; v_y : double; v_z : double }.
Record Quaternion := { q_x : double; q_y : double; q_z : double; q_w : double }.

(** [Eigen::Matrix3d], as its rows; [coeff R i j] is [R(i,j)] *)
Definition Matrix3d := list (list double).

Definition coeff (R : Matrix3d) (i j : nat) : double :=
  nth j (nth i R []) double_zero.

Class EigenGeometry := {
  (* Eigen::Quaternion<double> q(R), read through q.x() q.y() q.z() q.w() *)
  Quaterniond : Matrix3d -> Quaternion
}.

(** ** Messages *)

Section Driver.
Context {ros_time : RosTime} {eigen : EigenGeometry}.

Record Header := { stamp : Time; frame_id : string }.

(** [sensor_msgs::Imu] *)
Record Imu := {
  imu_header : Header;
  orientation : Quaternion;
  orientation_covariance : list double;
  angular_velocity : Vector3;
  linear_acceleration : Vector3
}.

(** [sensor_msgs::MagneticField] *)
Record MagneticField := {
  mag_header : Header;
  magnetic_field : Vector3
}.

Definition zero_vector : Vector3 :=
  {| v_x := double_zero; v_y := double_zero; v_z := double_zero |}.

Definition empty_header : Header :=
  {| stamp := Time_zero; frame_id := EmptyString |}.

(** the default-constructed messages *)
Definition new_Imu : Imu :=
  {| imu_header := empty_header;
     orientation := {| q_x := double_zero; q_y := double_zero;
                       q_z := double_zero; q_w := double_zero |};
     orientation_covariance := repeat double_zero 9;
     angular_velocity := zero_vector;
     linear_acceleration := zero_vector |}.

Definition new_MagneticField : MagneticField :=
  {| mag_header := empty_header; magnetic_field := zero_vector |}.

(** [a[i] = v] on an array of [double] *)
Fixpoint poke_double (a : list double) (i : nat) (v : double) : list double :=
  match a, i with
  | [], _ => []
  | _ :: t, O => v :: t
  | h :: t, S i' => h :: poke_double t i' v
  end.

(** ** FrameDecoder: the body of the streaming loop *)

(** [for (unsigned int i = 0; i < n; i++, k += 4) a[i] = extract_float(&(data[k]));]
    gives the array filled and the value of [k] after the loop. *)
Fixpoint extract_floats (host : byte_order) (data : list byte) (n : nat) (k : Z)
  : option (list float * Z) :=
  match n with
  | O => Some ([], k)
  | S n' =>
      match extract_float host data k with
      | None => None
      | Some f =>
          match extract_floats host data n' (k + 4) with
          | None => None
          | Some (fs, k') => Some (f :: fs, k')
          end
      end
  end.

(** the locals [accel], [ang_vel], [mag], [M] and [T] of one iteration *)
Record fields := {
  accel : list float;
  ang_vel : list float;
  mag : list float;
  M : list float;
  T : double
}.

(** lines 262-276 *)
Definition decode (host : byte_order) (data : list byte) : option fields :=
  let k := 1 in
  match extract_floats host data 3 k with
  | None => None
  | Some (accel, k) =>
  match extract_floats host data 3 k with
  | None => None
  | Some (ang_vel, k) =>
  match extract_floats host data 3 k with
  | None => None
  | Some (mag, k) =>
  match extract_floats host data 9 k with
  | None => None
  | Some (M, k) =>
  match extract_int host data k with
  | None => None
  | Some ticks =>
      Some {| accel := accel; ang_vel := ang_vel; mag := mag; M := M;
              T := double_div (double_of_int ticks) TICKS_PER_SECOND |}
  end end end end end.

(** element [i] of a local [float] array, converted to [double] *)
Definition at_double (a : list float) (i : nat) : double :=
  double_of_float (nth i a 0).

(** lines 287-290: [R(i,j) = M[j*3+i]] for [i], [j] in 0..2 *)
Definition rotation (M : list float) : Matrix3d :=
  map (fun i => map (fun j => at_double M (j * 3 + i)) (seq 0 3)) (seq 0 3).

(** ** The world of the driver

    What the process can observe and change: the serial line, the two global
    arrays, and the trace of what it did. The device's bytes form one
    stream, which closing and opening the port again does not cut; a read
    that would need more bytes than the stream holds never returns. *)

Inductive level := ERROR | WARN | INFO.

Inductive port_option :=
| baud_rate (baud : Z)
| flow_control_none
| parity_none
| stop_bits_one.

Inductive event :=
| Written (bytes : list byte)            (* boost::asio::write *)
| Slept (seconds : double)               (* ros::Duration(s).sleep() *)
| Opened (port : string)                 (* serial_port->open, no exception *)
| OpenFailed (port : string)             (* serial_port->open threw *)
| Closed                                 (* serial_port->close *)
| OptionSet (o : port_option)            (* serial_port->set_option *)
| Logged (l : level) (text : string)     (* ROS_ERROR, ROS_WARN, ROS_INFO *)
| Advertised (topic : string) (queue : Z)
| PublishedImu (msg : Imu)               (* imu_pub.publish *)
| PublishedMag (msg : MagneticField).    (* mag_pub.publish *)

Record world := {
  rx : list byte;             (* bytes the device sends, in order *)
  open_results : list bool;   (* whether each coming open() succeeds *)
  port_open : bool;           (* serial_port->is_open() *)
  mode : list byte;           (* global char mode[4] *)
  reply : list byte;          (* global unsigned char reply[REPLY_LENGTH] *)
  trace : list event;         (* what the process did, oldest first *)
  calls : list (list byte * Z) (* ghost: the buffer and the length passed
                                  at each call of validate_checksum *)
}.

(** the globals as initialised at lines 23-25 *)
Definition stop : list byte := [xfa; x75; xb4].
Definition mode_init : list byte := [xd4; xa3; x47; x00].

Definition boot (rx : list byte) (open_results : list bool) : world :=
  {| rx := rx; open_results := open_results; port_open := false;
     mode := mode_init; reply := repeat x00 (Z.to_nat REPLY_LENGTH);
     trace := []; calls := [] |}.

Definition emit (e : event) (w : world) : world :=
  {| rx := rx w; open_results := open_results w; port_open := port_open w;
     mode := mode w; reply := reply w; trace := trace w ++ [e];
     calls := calls w |}.

Definition with_port (rest : list bool) (b : bool) (w : world) : world :=
  {| rx := rx w; open_results := rest; port_open := b;
     mode := mode w; reply := reply w; trace := trace w; calls := calls w |}.

Definition with_rx (l : list byte) (w : world) : world :=
  {| rx := l; open_results := open_results w; port_open := port_open w;
     mode := mode w; reply := reply w; trace := trace w; calls := calls w |}.

Definition with_mode (m : list byte) (w : world) : world :=
  {| rx := rx w; open_results := open_results w; port_open := port_open w;
     mode := m; reply := reply w; trace := trace w; calls := calls w |}.

Definition with_reply (r : list byte) (w : world) : world :=
  {| rx := rx w; open_results := open_results w; port_open := port_open w;
     mode := mode w; reply := r; trace := trace w; calls := calls w |}.

Definition with_call (c : list byte * Z) (w : world) : world :=
  {| rx := rx w; open_results := open_results w; port_open := port_open w;
     mode := mode w; reply := reply w; trace := trace w;
     calls := calls w ++ [c] |}.

(** ** A monad for statements of [main] *)

Inductive outcome (A : Type) :=
| Done (a : A)       (* the statement completed *)
| Returned (code : Z) (* main executed [return code] *)
| Blocked            (* a read waits for bytes that never arrive *)
| Uncaught           (* an exception left main *)
| Undefined.         (* undefined behaviour *)

Arguments Done {A} a.
Arguments Returned {A} code.
Arguments Blocked {A}.
Arguments Uncaught {A}.
Arguments Undefined {A}.

Definition stmt (A : Type) := world -> outcome A * world.

Definition ret {A} (a : A) : stmt A := fun w => (Done a, w).

Definition bind {A B} (m : stmt A) (k : A -> stmt B) : stmt B :=
  fun w =>
    match m w with
    | (Done a, w') => k a w'
    | (Returned c, w') => (Returned c, w')
    | (Blocked, w') => (Blocked, w')
    | (Uncaught, w') => (Uncaught, w')
    | (Undefined, w') => (Undefined, w')
    end.

Notation "x <- m ;; k" := (bind m (fun x => k))
  (at level 61, m at next level, right associativity).
Notation "m ;; k" := (bind m (fun _ => k))
  (at level 61, right associativity).

(** [return code;] *)
Definition return_ {A} (code : Z) : stmt A := fun w => (Returned code, w).

(** [if (b) { m }] *)
Definition when (b : bool) (m : stmt unit) : stmt unit :=
  if b then m else ret tt.

Definition ROS_LOG (l : level) (text : string) : stmt unit :=
  fun w => (Done tt, emit (Logged l text) w).

Definition sleep (seconds : double) : stmt unit :=
  fun w => (Done tt, emit (Slept seconds) w).

Definition advertise (topic : string) (queue : Z) : stmt unit :=
  fun w => (Done tt, emit (Advertised topic queue) w).

Definition publish_imu (msg : Imu) : stmt unit :=
  fun w => (Done tt, emit (PublishedImu msg) w).

Definition publish_mag (msg : MagneticField) : stmt unit :=
  fun w => (Done tt, emit (PublishedMag msg) w).

(** [try { serial_port->open(port); } catch (...)]: [true] when no exception
    was thrown. Opening an open port throws. *)
Definition serial_open (port : string) : stmt bool :=
  fun w =>
    if port_open w then (Done false, emit (OpenFailed port) w)
    else
      match open_results w with
      | true :: rest =>
          (Done true, emit (Opened port) (with_port rest true w))
      | results =>
          (Done false, emit (OpenFailed port) (with_port (tl results) false w))
      end.

Definition is_open : stmt bool := fun w => (Done (port_open w), w).

Definition serial_close : stmt unit :=
  fun w => (Done tt, emit Closed (with_port (open_results w) false w)).

(** operations on the port throw when it is closed *)
Definition set_option (o : port_option) : stmt unit :=
  fun w => if port_open w then (Done tt, emit (OptionSet o) w) else (Uncaught, w).

Definition write (bytes : list byte) : stmt unit :=
  fun w => if port_open w then (Done tt, emit (Written bytes) w) else (Uncaught, w).

(** [boost::asio::read] of exactly [n] bytes *)
Definition read (n : nat) : stmt (list byte) :=
  fun w =>
    if port_open w then
      if (n <=? List.length (rx w))%nat
      then (Done (firstn n (rx w)), with_rx (skipn n (rx w)) w)
      else (Blocked, w)
    else (Uncaught, w).

(** [boost::asio::buffer(a, n)] *)
Definition buffer (a : list byte) (n : Z) : list byte := firstn (Z.to_nat n) a.

Definition get_mode : stmt (list byte) := fun w => (Done (mode w), w).
Definition get_reply : stmt (list byte) := fun w => (Done (reply w), w).

(** [mode[3] = b] *)
Definition set_mode3 (b : byte) : stmt unit :=
  fun w => (Done tt, with_mode (poke (mode w) 3 b) w).

(** [boost::asio::read( *serial_port, boost::asio::buffer(reply, REPLY_LENGTH))] *)
Definition read_reply : stmt unit :=
  bytes <- read (Z.to_nat REPLY_LENGTH) ;;
  fun w => (Done tt, with_reply bytes w).

(** a call [validate_checksum(data, length)] *)
Definition call_validate_checksum (data : list byte) (length : Z) : stmt bool :=
  fun w =>
    let w := with_call (data, length) w in
    match validate_checksum data length with
    | Some b => (Done b, w)
    | None => (Undefined, w)
    end.

(** [a[i]] in an expression *)
Definition load (a : list byte) (i : Z) : stmt byte :=
  fun w =>
    match index a i with
    | Some b => (Done b, w)
    | None => (Undefined, w)
    end.

(** [if (serial_port->is_open()) serial_port->close();] *)
Definition close_if_open : stmt unit :=
  o <- is_open ;; when o serial_close.

(** ** [main]

    [signal_handler] runs asynchronously on SIGINT and ends in
    [ros::shutdown()]; here its effect is an answer [false] of [n.ok()]. *)

(** the parameters of the node and the answers of [n.ok()] *)
Record config := {
  param_port : option string;
  param_baud : option Z;
  param_frame_id : option string;
  param_delay : option double;
  now : Time;                 (* ros::Time::now() when the timer is reset *)
  ok_polls : list bool        (* the successive values of n.ok() *)
}.

(** [n.param(name, var, default)] *)
Definition param {A} (value : option A) (default : A) : A :=
  match value with
  | Some v => v
  | None => default
  end.

(** lines 105-121 and 165-180: open the port or leave [main] *)
Definition open_or_return (port : string) : stmt unit :=
  opened <- serial_open port ;;
  when (negb opened)
    (ROS_LOG ERROR "Failed to open port" ;; return_ (-1)) ;;
  o <- is_open ;;
  when (negb o)
    (ROS_LOG ERROR "failed to open serial port" ;; return_ (-1)).

(** lines 139-142 and 181-184 *)
Definition set_options (baud : Z) : stmt unit :=
  set_option (baud_rate baud) ;;
  set_option flow_control_none ;;
  set_option parity_none ;;
  set_option stop_bits_one.

(** write [mode], read [reply], validate it *)
Definition mode_exchange : stmt bool :=
  m <- get_mode ;;
  write (buffer m MODE_CMD_LENGTH) ;;
  read_reply ;;
  r <- get_reply ;;
  call_validate_checksum r REPLY_LENGTH.

(** lines 149-195: query the mode; on a reply that fails validation, close
    the port, open it again and query once more *)
Definition check_mode (port : string) (baud : Z) : stmt unit :=
  (* Check the mode *)
  ok <- mode_exchange ;;
  reInitFlag <-
    (if negb ok then
       ROS_LOG ERROR "failed to get mode" ;;
       close_if_open ;;
       ret true
     else ret false) ;;
  when reInitFlag
    (ROS_LOG WARN "In Re-Init" ;;
     sleep double_tenth ;;
     open_or_return port ;;
     set_options baud ;;
     (* Check the mode *)
     ok <- mode_exchange ;;
     when (negb ok)
       (ROS_LOG ERROR "failed to get mode" ;;
        close_if_open ;;
        return_ (-1))).

(** lines 144-245: from the stop command to the reset of the timer;
    gives [t0] *)
Definition handshake (port : string) (baud : Z) : config -> stmt Time :=
  fun cfg =>
  (* Stop continous mode if it is running *)
  write (buffer stop STOP_CMD_LENGTH) ;;
  ROS_LOG WARN "Wait 0.1s" ;;
  sleep double_tenth ;;
  check_mode port baud ;;
  (* If we are not in active mode, change it *)
  r <- get_reply ;;
  r2 <- load r 2 ;;
  when (negb (u8 r2 =? 1))
    (set_mode3 x01 ;;
     ok <- mode_exchange ;;
     when (negb ok)
       (ROS_LOG ERROR "failed to set mode to active" ;;
        close_if_open ;;
        return_ (-1))) ;;
  (* Set the continous preset mode *)
  let preset := [xd6; xc6; x6b; xcc] in
  write (buffer preset 4) ;;
  read_reply ;;
  r <- get_reply ;;
  ok <- call_validate_checksum r REPLY_LENGTH ;;
  when (negb ok)
    (ROS_LOG ERROR "failed to set continuous mode preset" ;;
     close_if_open ;;
     return_ (-1)) ;;
  (* Set the mode to continous output *)
  set_mode3 x02 ;;
  ok <- mode_exchange ;;
  when (negb ok)
    (ROS_LOG ERROR "failed to set mode to continuous output" ;;
     close_if_open ;;
     return_ (-1)) ;;
  (* Set Timer *)
  let set_timer := [xd7; xc1; x29; x01; x00; x00; x00; x00] in
  write (buffer set_timer 8) ;;
  _ <- read 7 ;;
  ret (now cfg).

(** the locals of [main] that live across the iterations of the loop *)
Record locals := {
  l_frame_id : string;
  l_delay : double;
  l_t0 : Time;
  l_data : list byte;          (* unsigned char data[DATA_LENGTH] *)
  imu_msg : Imu;
  mag_msg : MagneticField
}.

(** [t0 + ros::Duration(T) - ros::Duration(delay)] *)
Definition stamp_of (t0 : Time) (T delay : double) : Time :=
  Time_minus (Time_plus t0 (Duration_of_double T)) (Duration_of_double delay).

(** lines 278-296: the assignments to [imu_msg] *)
Definition fill_imu (l : locals) (f : fields) : Imu :=
  let header :=
    {| stamp := stamp_of (l_t0 l) (T f) (l_delay l);
       frame_id := l_frame_id l |} in
  let angular_velocity :=
    {| v_x := at_double (ang_vel f) 0;
       v_y := at_double (ang_vel f) 1;
       v_z := at_double (ang_vel f) 2 |} in
  let linear_acceleration :=
    {| v_x := double_mul (at_double (accel f) 0) GRAVITY_CONSTANT;
       v_y := double_mul (at_double (accel f) 1) GRAVITY_CONSTANT;
       v_z := double_mul (at_double (accel f) 2) GRAVITY_CONSTANT |} in
  let R := rotation (M f) in
  let q := Quaterniond R in
  {| imu_header := header;
     orientation := {| q_x := q_x q; q_y := q_y q; q_z := q_z q; q_w := q_w q |};
     orientation_covariance :=
       poke_double (orientation_covariance (imu_msg l)) 0 (double_of_int (-1));
     angular_velocity := angular_velocity;
     linear_acceleration := linear_acceleration |}.

(** lines 300-304: the assignments to [mag_msg] *)
Definition fill_mag (l : locals) (f : fields) : MagneticField :=
  {| mag_header :=
       {| stamp := stamp_of (l_t0 l) (T f) (l_delay l);
          frame_id := l_frame_id l |};
     magnetic_field :=
       {| v_x := at_double (mag f) 0;
          v_y := at_double (mag f) 1;
          v_z := at_double (mag f) 2 |} |}.

Definition with_data (data : list byte) (l : locals) : locals :=
  {| l_frame_id := l_frame_id l; l_delay := l_delay l; l_t0 := l_t0 l;
     l_data := data; imu_msg := imu_msg l; mag_msg := mag_msg l |}.

Definition with_msgs (i : Imu) (m : MagneticField) (l : locals) : locals :=
  {| l_frame_id := l_frame_id l; l_delay := l_delay l; l_t0 := l_t0 l;
     l_data := l_data l; imu_msg := i; mag_msg := m |}.

(** lines 256-306: the body of [while (n.ok())]; [continue] and the end of
    the body both give the locals for the next iteration *)
Definition iteration (host : byte_order) (l : locals) : stmt locals :=
  bytes <- read (Z.to_nat DATA_LENGTH) ;;
  let l := with_data bytes l in
  ok <- call_validate_checksum (l_data l) DATA_LENGTH ;;
  if negb ok then
    ROS_LOG ERROR "checksum failed on message" ;;
    ret l                                           (* continue *)
  else
    match decode host (l_data l) with
    | None => fun w => (Undefined, w)
    | Some f =>
        let imu := fill_imu l f in
        publish_imu imu ;;
        let mag := fill_mag l f in
        publish_mag mag ;;
        ret (with_msgs imu mag l)
    end.

(** [while (n.ok()) { ... }], over the answers of [n.ok()] *)
Fixpoint stream_loop (host : byte_order) (oks : list bool) (l : locals)
  : stmt locals :=
  match oks with
  | true :: oks' => l' <- iteration host l ;; stream_loop host oks' l'
  | _ => ret l
  end.

(** lines 247-252 *)
Definition start_streaming (frame_id : string) (delay : double) (t0 : Time)
  : stmt locals :=
  ROS_LOG INFO "Streaming Data..." ;;
  advertise "imu" 100 ;;
  advertise "magnetic" 100 ;;
  ret {| l_frame_id := frame_id; l_delay := delay; l_t0 := t0;
         l_data := repeat x00 (Z.to_nat DATA_LENGTH);
         imu_msg := new_Imu; mag_msg := new_MagneticField |}.

Definition main (host : byte_order) (cfg : config) : stmt Z :=
  match param_port cfg with
  | None => ROS_LOG ERROR "must provide a port" ;; return_ (-1)
  | Some port =>
      open_or_return port ;;
      let baud := param (param_baud cfg) 115200 in
      let frame_id := param (param_frame_id cfg) "imu"%string in
      let delay := param (param_delay cfg) double_zero in
      set_options baud ;;
      t0 <- handshake port baud cfg ;;
      l <- start_streaming frame_id delay t0 ;;
      _ <- stream_loop host (ok_polls cfg) l ;;
      (* Stop continous and close device *)
      write (buffer stop STOP_CMD_LENGTH) ;;
      ROS_LOG WARN "Wait 0.1s" ;;
      sleep double_tenth ;;
      serial_close ;;
      return_ 0
  end.

(** ** Notions used to state the properties *)

(** the 32-bit pattern that a host reads from the four bytes at [k]: on a
    little-endian host the big-endian reading of [data[k..k+3]] *)
Definition word_at (host : byte_order) (data : list byte) (k : Z) : Z :=
  match host with
  | LittleEndian => decode_be32 (slice data (Z.to_nat k) 4)
  | BigEndian => decode_be32 (rev (slice data (Z.to_nat k) 4))
  end.

(** the 64-bit pattern of a binary64 datum in canonical form: sign, biased
    exponent and fraction; a NaN has no payload here, and no pattern *)
Definition binary64_pattern (x : double) : option Z :=
  let sign (s : bool) := if s then 9223372036854775808 else 0 in
  match x with
  | S754_zero s => Some (sign s)
  | S754_infinity s => Some (sign s + 9218868437227405312)
  | S754_nan => None
  | S754_finite s m e =>
      if Zpos m <? 4503599627370496 then Some (sign s + Zpos m)
      else Some (sign s + (e + 1075) * 4503599627370496
                 + (Zpos m - 4503599627370496))
  end.

(** the field at offset [k] of a frame as the device sends it: the
    big-endian reading of [data[k..k+3]] *)
Definition field_be (data : list byte) (k : nat) : Z :=
  decode_be32 (slice data k 4).

(** the [float] at [k], converted to [double] *)
Definition double_at (host : byte_order) (data : list byte) (k : Z) : double :=
  double_of_float (word_at host data k).

(** two data denote the same number: the same special value, or the same
    sign and mantissas and exponents with [m' * 2^e' = m * 2^e] *)
Definition same_number (x y : spec_float) : Prop :=
  match x, y with
  | S754_finite s m e, S754_finite s' m' e' =>
      s = s' /\ exists n, 0 <= n /\ Zpos m' = Zpos m * 2 ^ n /\ e' = e - n
  | _, _ => x = y
  end.

Definition is_query (e : event) : bool :=
  match e with
  | Written [xd4; xa3; x47; x00] => true
  | _ => false
  end.

Definition is_sample (e : event) : bool :=
  match e with
  | PublishedImu _ | PublishedMag _ => true
  | _ => false
  end.

(** the mode queries sent, and the samples handed to the publishers *)
Definition queries (t : list event) : list event := filter is_query t.
Definition samples (t : list event) : list event := filter is_sample t.

(** the events of a first mode query whose reply fails validation, up to
    the second query *)
Definition retry_events (port : string) (baud : Z) : list event :=
  [Written mode_init; Logged ERROR "failed to get mode"; Closed;
   Logged WARN "In Re-Init"; Slept double_tenth; Opened port;
   OptionSet (baud_rate baud); OptionSet flow_control_none;
   OptionSet parity_none; OptionSet stop_bits_one;
   Written mode_init].

(** an [Imu] sample flags its orientation covariance as unknown *)
Definition covariance_unknown (msg : Imu) : Prop :=
  nth_error (orientation_covariance msg) 0 = Some (double_of_int (-1)).

Definition event_ok (e : event) : Prop :=
  match e with
  | PublishedImu msg => covariance_unknown msg
  | _ => True
  end.

(** a call of [validate_checksum] passes 4 or 79, the size of its buffer *)
Definition call_ok (c : list byte * Z) : Prop :=
  (snd c = 4 \/ snd c = 79) /\ Z.of_nat (List.length (fst c)) = snd c.

(** the global [reply] has its declared size *)
Definition world_ok (w : world) : Prop :=
  List.length (reply w) = Z.to_nat REPLY_LENGTH.

Definition locals_ok (l : locals) : Prop :=
  List.length (orientation_covariance (imu_msg l)) = 9%nat.

(** [safe m Q]: from a world where [reply] has its size, [m] has no
    undefined behaviour, keeps that size, adds to the trace only events
    that are [event_ok] and makes only calls that are [call_ok]; when it
    completes, its result satisfies [Q]. *)
Definition safe {A : Type} (m : stmt A) (Q : A -> Prop) : Prop :=
  forall w, world_ok w ->
    world_ok (snd (m w)) /\
    (exists es, trace (snd (m w)) = trace w ++ es /\ Forall event_ok es) /\
    (exists cs, calls (snd (m w)) = calls w ++ cs /\ Forall call_ok cs) /\
    match fst (m w) with
    | Done a => Q a
    | Undefined => False
    | _ => True
    end.

End Driver.

Arguments Done {A} a.
Arguments Returned {A} code.
Arguments Blocked {A}.
Arguments Uncaught {A}.
Arguments Undefined {A}.

(** ** Reference collaborators

    One implementation of each interface, on which the driver can be run:
    a clock that counts whole nanoseconds, and the conversion of a 3x3 matrix
    to a quaternion by the usual branch on the trace and the largest diagonal
    entry, in binary64 arithmetic. The properties of the driver hold for
    every implementation of the interfaces; those of the conversion are
    proved of this one. *)

(** a duration in whole nanoseconds, rounded towards zero *)
Definition nanoseconds (d : double) : Z :=
  match d with
  | S754_finite s m e =>
      let n := Zpos m * 1000000000 in
      let v := if 0 <=? e then n * 2 ^ e else n / 2 ^ (- e) in
      if s then - v else v
  | _ => 0
  end.

#[export] Instance nanosecond_clock : RosTime := {|
  Time := Z;
  Duration := Z;
  Time_zero := 0;
  Duration_of_double := nanoseconds;
  Time_plus := Z.add;
  Time_minus := Z.sub
|}.

Definition double_add : double -> double -> double := SFadd 53 1024.
Definition double_sub : double -> double -> double := SFsub 53 1024.
Definition double_sqrt : double -> double := SFsqrt 53 1024.
Definition double_gt (a b : double) : bool := SFltb b a.
Definition double_one : double := S754_finite false 4503599627370496 (-52).
Definition double_half : double := S754_finite false 4503599627370496 (-53).

Local Open Scope nat_scope.

(** Modelled from the spec: [Eigen::Quaternion<double>(R)] is library code
    that the repository does not hold; this is the conversion the spec
    describes, with its branch on the trace and on the largest diagonal
    entry, in binary64 arithmetic. *)
Definition matrix_to_quaternion (R : Matrix3d) : Quaternion :=
  let m := coeff R in
  let t := double_add (double_add (m 0 0) (m 1 1)) (m 2 2) in
  if double_gt t double_zero then
    let t := double_sqrt (double_add t double_one) in
    let w := double_mul double_half t in
    let t := double_div double_half t in
    {| q_x := double_mul (double_sub (m 2 1) (m 1 2)) t;
       q_y := double_mul (double_sub (m 0 2) (m 2 0)) t;
       q_z := double_mul (double_sub (m 1 0) (m 0 1)) t;
       q_w := w |}
  else
    let i := if double_gt (m 1 1) (m 0 0) then 1 else 0 in
    let i := if double_gt (m 2 2) (m i i) then 2 else i in
    let j := (i + 1) mod 3 in
    let k := (j + 1) mod 3 in
    let t := double_sqrt
               (double_add (double_sub (double_sub (m i i) (m j j)) (m k k))
                           double_one) in
    let ci := double_mul double_half t in
    let t := double_div double_half t in
    let w := double_mul (double_sub (m k j) (m j k)) t in
    let cj := double_mul (double_add (m j i) (m i j)) t in
    let ck := double_mul (double_add (m k i) (m i k)) t in
    let c n := if n =? i then ci else if n =? j then cj else ck in
    {| q_x := c 0; q_y := c 1; q_z := c 2; q_w := w |}.

Local Close Scope nat_scope.

#[export] Instance double_geometry : EigenGeometry := {|
  Quaterniond := matrix_to_quaternion
|}.

(** ** A worked frame

    Acceleration (0, 0, 1) g, everything else zero but the rotation matrix,
    which is the identity, and a timer count of 62500; the last two bytes
    are the checksum. *)

Definition one_f : list byte := [x3f; x80; x00; x00].
Definition zero_f : list byte := [x00; x00; x00; x00].

Definition sample_frame : list byte :=
  [x00]
  ++ zero_f ++ zero_f ++ one_f                 (* acceleration *)
  ++ zero_f ++ zero_f ++ zero_f                (* angular rate *)
  ++ zero_f ++ zero_f ++ zero_f                (* magnetic field *)
  ++ one_f ++ zero_f ++ zero_f                 (* rotation matrix *)
  ++ zero_f ++ one_f ++ zero_f
  ++ zero_f ++ zero_f ++ one_f
  ++ [x00; x00; xf4; x24]                      (* timer: 62500 *)
  ++ [x04; x14].                               (* checksum *)

(** the same frame with its last byte changed *)
Definition damaged_frame : list byte :=
  firstn 78 sample_frame ++ [x15].

(** handshake replies: two with a correct checksum, whose byte 2 is and is
    not 1, and one with a wrong checksum *)
Definition reply_active : list byte := [xd4; x2d; x01; x01].
Definition reply_idle : list byte := [xd4; x00; x00; xd4].
Definition reply_damaged : list byte := [xd4; x00; x00; x00].

(** a node configured with its port only, started at second 5 *)
Definition sample_config : config :=
  {| param_port := Some "/dev/ttyUSB0"%string;
     param_baud := None;
     param_frame_id := None;
     param_delay := None;
     now := 5000000000;
     ok_polls := [true] |}.

(** the locals of [main] when the loop starts *)
Definition sample_locals : locals :=
  {| l_frame_id := "imu"; l_delay := double_zero; l_t0 := 5000000000;
     l_data := repeat x00 79;
     imu_msg := new_Imu; mag_msg := new_MagneticField |}.

(** a world in which the port is open and the device sends [bytes] *)
Definition streaming_world (bytes : list byte) : world :=
  {| rx := bytes; open_results := []; port_open := true;
     mode := [xd4; xa3; x47; x02]; reply := reply_idle;
     trace := []; calls := [] |}.

(** a world in which the port was just opened, one more opening will
    succeed, and the device sends [bytes] *)
Definition opened_world (bytes : list byte) : world :=
  {| rx := bytes; open_results := [true]; port_open := true;
     mode := mode_init; reply := repeat x00 4;
     trace := []; calls := [] |}.

(** what the device sends when the first mode query is answered badly, the
    second well, and one frame is streamed *)
Definition sample_input : list byte :=
  reply_damaged ++ reply_active ++ reply_idle ++ reply_idle
  ++ [xd7; x00; x00; x00; x00; x00; xd7] ++ sample_frame.

(** ** Two more frames

    The worked frame with angular rates (1, -2, 0.5) and a magnetic field
    (0.25, -0.5, 2), and the worked frame with the timer count
    [2^32 - 62500]; each with its checksum. *)

Definition turning_frame : list byte :=
  [x00]
  ++ zero_f ++ zero_f ++ one_f                 (* acceleration *)
  ++ one_f ++ [xc0; x00; x00; x00] ++ [x3f; x00; x00; x00]   (* angular rate *)
  ++ [x3e; x80; x00; x00] ++ [xbf; x00; x00; x00]
  ++ [x40; x00; x00; x00]                      (* magnetic field *)
  ++ one_f ++ zero_f ++ zero_f                 (* rotation matrix *)
  ++ zero_f ++ one_f ++ zero_f
  ++ zero_f ++ zero_f ++ one_f
  ++ [x00; x00; xf4; x24]                      (* timer: 62500 *)
  ++ [x07; x8f].                               (* checksum *)

Definition wrapped_frame : list byte :=
  firstn 73 sample_frame
  ++ [xff; xff; x0b; xdc]                      (* timer: 2^32 - 62500 *)
  ++ [x05; xe1].                               (* checksum *)

(** ** Further notions

    Definitions used by the properties of Part III: the byte swap of a
    32-bit pattern, [print_bytes], the samples of a frame, a logic for the
    statements of [main], and the dialogue with the device. *)

(** the 32-bit pattern with its four bytes in the opposite order *)
Definition bswap32 (v : Z) : Z := decode_be32 (rev (encode_be32 v)).

(** ** [print_bytes] *)

(** a digit of [printf]'s [%x]: [0]-[9], [a]-[f] *)
Definition hex_digit (d : Z) : ascii :=
  if d <? 10 then ascii_of_nat (48 + Z.to_nat d)
  else ascii_of_nat (87 + Z.to_nat d).

(** [printf("%2x ", v)] for the value of an [unsigned char]: lower-case
    hexadecimal, padded with a space to two columns, then a space *)
Definition printf_2x (v : Z) : string :=
  let hi := v / 16 in
  let lo := v mod 16 in
  String (if hi =? 0 then " "%char else hex_digit hi)
         (String (hex_digit lo) (String " "%char EmptyString)).

(** The loop [for (unsigned int i = 0; i < length; i++) printf("%2x ", data[i]);]
    gives the text printed from [i] on. *)
Fixpoint print_loop (fuel : nat) (data : list byte) (length i : Z)
  : option string :=
  match fuel with
  | O => None
  | S fuel' =>
      if i <? length then
        match index data i with
        | None => None
        | Some b =>
            option_map (append (printf_2x (u8 b)))
                       (print_loop fuel' data length (i + 1))
        end
      else Some EmptyString
  end.

(** [puts("")] *)
Definition newline : string := String (ascii_of_nat 10) EmptyString.

(** the text that [print_bytes(data, length)] sends to the standard output *)
Definition print_bytes (data : list byte) (length : Z) : option string :=
  option_map (fun text => append text newline)
             (print_loop loop_fuel data length 0).

(** the text of the bytes [l], without the end of line *)
Definition hex_text (l : list byte) : string :=
  fold_right (fun b text => append (printf_2x (u8 b)) text) EmptyString l.

Section DriverNotions.
Context {ros_time : RosTime} {eigen : EigenGeometry}.

(** whether a 79-byte frame passes validation *)
Definition frame_valid (frame : list byte) : bool :=
  match validate_checksum frame DATA_LENGTH with
  | Some true => true
  | _ => false
  end.

(** the events that the samples of a frame make, as computed from the
    locals [l] *)
Definition frame_samples (host : byte_order) (l : locals) (frame : list byte)
  : list event :=
  if frame_valid frame then
    match decode host frame with
    | Some f => [PublishedImu (fill_imu l f); PublishedMag (fill_mag l f)]
    | None => []
    end
  else [].

(** two states of the locals from which the same samples are built *)
Definition same_settings (l1 l2 : locals) : Prop :=
  l_t0 l1 = l_t0 l2 /\ l_delay l1 = l_delay l2 /\
  l_frame_id l1 = l_frame_id l2 /\
  poke_double (orientation_covariance (imu_msg l1)) 0 (double_of_int (-1))
  = poke_double (orientation_covariance (imu_msg l2)) 0 (double_of_int (-1)).

End DriverNotions.

Section DriverLogic.
Context {ros_time : RosTime} {eigen : EigenGeometry}.

(** how a statement stops without completing or returning: it waits for
    input, throws an exception that [main] does not catch, or has undefined
    behaviour *)
Inductive halt : Type := Blocks | Throws | Faults.

(** [hoare Pre m Post Exit Stop]: run from a world satisfying [Pre], the
    statement [m] leaves a world satisfying [Post] with its result when it
    completes, [Exit] with the code when it makes [main] return, and [Stop]
    with the way it stops otherwise. *)
Definition hoare {A : Type} (Pre : world -> Prop) (m : stmt A)
           (Post : A -> world -> Prop) (Exit : Z -> world -> Prop)
           (Stop : halt -> world -> Prop) : Prop :=
  forall w, Pre w ->
    match m w with
    | (Done a, w') => Post a w'
    | (Returned c, w') => Exit c w'
    | (Blocked, w') => Stop Blocks w'
    | (Uncaught, w') => Stop Throws w'
    | (Undefined, w') => Stop Faults w'
    end.

(** the commands of the protocol that the driver holds *)
Definition known_commands : list (list byte) :=
  [ [xfa; x75; xb4];
    [xd4; xa3; x47; x00]; [xd4; xa3; x47; x01]; [xd4; xa3; x47; x02];
    [xd6; xc6; x6b; xcc];
    [xd7; xc1; x29; x01; x00; x00; x00; x00] ].

Definition event_known (e : event) : Prop :=
  match e with
  | Written bytes => In bytes known_commands
  | _ => True
  end.

(** the global [mode] holds one of the three mode commands *)
Definition mode_known (m : list byte) : Prop :=
  m = [xd4; xa3; x47; x00] \/ m = [xd4; xa3; x47; x01]
  \/ m = [xd4; xa3; x47; x02].

Definition commands_known (w : world) : Prop :=
  mode_known (mode w) /\ Forall event_known (trace w).

(** during start-up: the port is open and no sample was published *)
Definition starting (w : world) : Prop :=
  port_open w = true /\ samples (trace w) = [].

(** while streaming: the port is open *)
Definition running (w : world) : Prop := port_open w = true.

(** the port is closed and no sample was published *)
Definition idle (w : world) : Prop :=
  port_open w = false /\ samples (trace w) = [].

(** how [main] may return: with the port closed, and either with 0 or with
    -1 and no sample published *)
Definition ends (c : Z) (w : world) : Prop :=
  port_open w = false /\ (c = 0 \/ (c = -1 /\ samples (trace w) = [])).

(** how [main] may stop without returning: when it waits, the input does
    not complete a frame; nothing is said of a stop on an exception or on
    undefined behaviour *)
Definition waits (h : halt) (w : world) : Prop :=
  match h with
  | Blocks => (List.length (rx w) < Z.to_nat DATA_LENGTH)%nat
  | Throws => True
  | Faults => True
  end.

End DriverLogic.

Section DriverDialogue.
Context {ros_time : RosTime} {eigen : EigenGeometry}.

(** the sequences of bytes written to the port, in order *)
Definition written (t : list event) : list (list byte) :=
  flat_map (fun e => match e with
                     | Written bytes => [bytes]
                     | _ => []
                     end) t.

(** a point of the dialogue with the device: the port is open, [cs] was
    written, [input] is still to be read, and the globals [mode] and [reply]
    hold [m] and [r] *)
Definition talking (cs : list (list byte)) (input m r : list byte)
           (w : world) : Prop :=
  port_open w = true /\ written (trace w) = cs /\ rx w = input /\
  mode w = m /\ reply w = r.

(** the commands of a start-up whose replies all pass validation *)
Definition startup_commands (active : bool) : list (list byte) :=
  [stop; mode_init]
  ++ (if active then [] else [[xd4; xa3; x47; x01]])
  ++ [[xd6; xc6; x6b; xcc]; [xd4; xa3; x47; x02];
      [xd7; xc1; x29; x01; x00; x00; x00; x00]].

End DriverDialogue.

(** ** Exact values of binary64 data

    Every finite binary64 number is a whole number of units of [2^-1074]:
    sums and products of such numbers are then sums and products of
    integers, with no rounding. *)


(** a finite datum, in units of [2^-1074] *)
Definition exact (x : double) : option Z :=
  match x with
  | S754_zero _ => Some 0
  | S754_finite s m e =>
      if e <? -1074 then None
      else Some (cond_Zopp s (Zpos m * 2 ^ (e + 1074)))
  | _ => None
  end.





(** *** The rotation matrices of binary64 numbers, one by one

    The entries of a valid rotation matrix are 0, 1 and -1, so that the
    matrices can be listed and the conversion run on each. Here values are
    in units of [2^-60], which hold the quaternions met. *)







(* ===================================================================== *)
(** * Part II: properties                                                  *)
(* ===================================================================== *)

(** ** Bytes *)

Lemma u8_range (b : byte) : 0 <= u8 b <= 255.
Proof.
  unfold u8. pose proof (Byte.to_N_bounded b). lia.
Qed.

Lemma byte_of_Z_u8 (b : byte) : byte_of_Z (u8 b) = b.
Proof.
  unfold byte_of_Z. pose proof (u8_range b) as Hb.
  rewrite Z.mod_small by lia. unfold u8. rewrite N2Z.id.
  now rewrite Byte.of_to_N.
Qed.

Lemma u8_byte_of_Z (z : Z) : u8 (byte_of_Z z) = z mod 256.
Proof.
  unfold byte_of_Z, u8.
  pose proof (Z.mod_pos_bound z 256 ltac:(lia)) as Hz.
  destruct (Byte.of_N (Z.to_N (z mod 256))) as [b|] eqn:E.
  - apply Byte.to_of_N in E. rewrite E. lia.
  - apply Byte.of_N_None_iff in E. lia.
Qed.

Lemma u8_inj (a b : byte) : u8 a = u8 b -> a = b.
Proof.
  intro H. rewrite <- (byte_of_Z_u8 a), <- (byte_of_Z_u8 b). now rewrite H.
Qed.

(** ** Arrays *)

Lemma index_nat (data : list byte) (n : nat) :
  index data (Z.of_nat n) = nth_error data n.
Proof.
  unfold index. destruct (Z.ltb_spec (Z.of_nat n) 0); [lia|].
  now rewrite Nat2Z.id.
Qed.

Lemma index_Some (data : list byte) (i : Z) :
  0 <= i < Z.of_nat (List.length data) -> exists b, index data i = Some b.
Proof.
  intros H. unfold index. destruct (Z.ltb_spec i 0); [lia|].
  destruct (nth_error data (Z.to_nat i)) eqn:E; [eauto|].
  apply nth_error_None in E. lia.
Qed.


Lemma byte_sum_app (l1 l2 : list byte) :
  byte_sum (l1 ++ l2) = byte_sum l1 + byte_sum l2.
Proof.
  induction l1 as [|b l1 IH]; simpl; [reflexivity|]. rewrite IH. lia.
Qed.

Lemma firstn_succ_nth (data : list byte) (n : nat) (b : byte) :
  nth_error data n = Some b -> firstn (S n) data = firstn n data ++ [b].
Proof.
  revert data. induction n as [|n IH]; intros [|x data] H; simpl in *;
    try discriminate.
  - now inversion H.
  - f_equal. now apply IH.
Qed.

Lemma skipn_two_last (data : list byte) (n : nat) (hi lo : byte) :
  List.length data = S (S n) ->
  nth_error data n = Some hi -> nth_error data (S n) = Some lo ->
  skipn n data = [hi; lo].
Proof.
  revert data. induction n as [|n IH]; intros data Hlen Hhi Hlo.
  - destruct data as [|a [|b [|c data]]]; simpl in *; try discriminate.
    now inversion Hhi; inversion Hlo.
  - destruct data as [|a data]; simpl in *; [discriminate|].
    apply IH; auto.
Qed.

(** ** [validate_checksum] *)

(** the loop adds the bytes from [i] up to [length - 3] to the sum *)
Lemma checksum_loop_sum (data : list byte) (length : Z) (k : nat) :
  forall (fuel : nat) (i : nat) (chksum : Z),
    (k < fuel)%nat ->
    Z.of_nat i + Z.of_nat k = length - 2 ->
    length - 2 <= Z.of_nat (List.length data) ->
    length <= 65535 ->
    chksum = to_ushort (byte_sum (firstn i data)) ->
    checksum_loop fuel data length (Z.of_nat i) chksum =
      Some (to_ushort (byte_sum (firstn (i + k) data))).
Proof.
  induction k as [|k IH]; intros fuel i chksum Hfuel Hik Hlen Hmax Hsum;
    (destruct fuel as [|fuel]; [lia|]); simpl.
  - destruct (Z.ltb_spec (Z.of_nat i) (length - 2)); [lia|].
    now rewrite Nat.add_0_r, Hsum.
  - destruct (Z.ltb_spec (Z.of_nat i) (length - 2)); [|lia].
    rewrite index_nat.
    destruct (nth_error data i) as [b|] eqn:E.
    2:{ apply nth_error_None in E. lia. }
    assert (Hi : to_ushort (Z.of_nat i + 1) = Z.of_nat (S i)).
    { unfold to_ushort. rewrite Z.mod_small; lia. }
    rewrite Hi.
    rewrite (IH fuel (S i)); try lia.
    + now replace (S i + k)%nat with (i + S k)%nat by lia.
    + rewrite (firstn_succ_nth _ _ _ E), byte_sum_app. simpl.
      subst chksum. unfold to_ushort.
      rewrite Z.add_0_r, Z.add_mod_idemp_l by lia. reflexivity.
Qed.

(** what the function computes on a buffer whose size is the length passed *)
Lemma validate_checksum_eq (b : list byte) (n : nat) (hi lo : byte) :
  List.length b = S (S n) ->
  Z.of_nat (List.length b) <= 65535 ->
  nth_error b n = Some hi -> nth_error b (S n) = Some lo ->
  validate_checksum b (Z.of_nat (List.length b)) =
    Some (byte_sum (firstn n b) mod 65536 =? 256 * u8 hi + u8 lo).
Proof.
  intros Hlen Hmax Hhi Hlo. unfold validate_checksum.
  pose proof (checksum_loop_sum b (Z.of_nat (List.length b)) n loop_fuel
                0%nat 0) as Hloop.
  change (Z.of_nat 0) with 0 in Hloop.
  rewrite Hloop; try (unfold loop_fuel; lia); try reflexivity.
  replace (Z.of_nat (List.length b) - 2) with (Z.of_nat n) by lia.
  replace (Z.of_nat (List.length b) - 1) with (Z.of_nat (S n)) by lia.
  rewrite !index_nat, Hhi, Hlo. simpl Nat.add.
  pose proof (u8_range hi). pose proof (u8_range lo).
  rewrite Z.shiftl_mul_pow2 by lia. unfold to_ushort.
  change (2 ^ 8) with 256.
  rewrite (Z.mod_small (u8 hi * 256)) by lia.
  rewrite (Z.mod_small (u8 hi * 256 + u8 lo)) by lia.
  now rewrite (Z.mul_comm (u8 hi)).
Qed.

Lemma encode_be16_eq (v : Z) (hi lo : byte) :
  0 <= v < 65536 ->
  ([hi; lo] = encode_be16 v <-> v = 256 * u8 hi + u8 lo).
Proof.
  intros Hv. unfold encode_be16. split.
  - intros H. inversion H; subst. rewrite !u8_byte_of_Z.
    rewrite (Z.mod_small (v / 256)).
    + pose proof (Z.div_mod v 256). lia.
    + split; [apply Z.div_pos; lia|apply Z.div_lt_upper_bound; lia].
  - intros ->. pose proof (u8_range hi). pose proof (u8_range lo).
    replace ((256 * u8 hi + u8 lo) / 256) with (u8 hi).
    2:{ apply Z.div_unique with (r := u8 lo); lia. }
    f_equal; [|f_equal].
    + now rewrite byte_of_Z_u8.
    + apply u8_inj. rewrite u8_byte_of_Z.
      rewrite Z.add_comm, Z.mul_comm, Z.mod_add by lia.
      rewrite Z.mod_small; lia.
Qed.

(** C1. For every byte buffer [b] of length [n >= 2] (a length is an
    [unsigned short], so [n <= 65535]), [validate_checksum] returns, and it
    returns true if and only if the last two bytes of [b] are the big-endian
    encoding of the sum modulo 65536 of the bytes [b[0..n-2]]. *)
Theorem validate_checksum_iff_be16_sum (b : list byte) :
  2 <= Z.of_nat (List.length b) <= 65535 ->
  let n := List.length b in
  (exists r, validate_checksum b (Z.of_nat n) = Some r) /\
  (validate_checksum b (Z.of_nat n) = Some true <->
   skipn (n - 2) b = encode_be16 (byte_sum (firstn (n - 2) b) mod 65536)).
Proof.
  intros Hn n.
  destruct (List.length b) as [|[|m]] eqn:Hlen; [lia|lia|].
  assert (Hhi : exists hi, nth_error b m = Some hi).
  { destruct (nth_error b m) eqn:E; [eauto|]. apply nth_error_None in E. lia. }
  assert (Hlo : exists lo, nth_error b (S m) = Some lo).
  { destruct (nth_error b (S m)) eqn:E; [eauto|].
    apply nth_error_None in E. lia. }
  destruct Hhi as [hi Hhi], Hlo as [lo Hlo].
  subst n. replace (S (S m) - 2)%nat with m by lia.
  rewrite <- Hlen.
  rewrite (validate_checksum_eq b m hi lo Hlen ltac:(lia) Hhi Hlo).
  rewrite (skipn_two_last b m hi lo Hlen Hhi Hlo).
  split; [eauto|].
  rewrite encode_be16_eq by (apply Z.mod_pos_bound; lia).
  split.
  - intros H. inversion H as [H']. now apply Z.eqb_eq in H'.
  - intros H. f_equal. now apply Z.eqb_eq.
Qed.

Lemma validate_checksum_iff_be16_sum_witness :
  2 <= Z.of_nat (List.length sample_frame) <= 65535 /\
  validate_checksum sample_frame 79 = Some true.
Proof.
  assert (H : 2 <= Z.of_nat (List.length sample_frame) <= 65535)
    by (simpl; lia).
  split; [exact H|].
  apply (proj2 (validate_checksum_iff_be16_sum sample_frame H)).
  vm_compute. reflexivity.
Defined.

(** ** [extract_float] and [extract_int] *)

(** the four stores reverse the four bytes read *)
Lemma reversed_copy_four (a0 a1 a2 a3 : byte) :
  reversed_copy [a0; a1; a2; a3] 0 = Some [a3; a2; a1; a0].
Proof. reflexivity. Qed.

(** the bytes of a big-endian encoding add up to the pattern encoded *)
Lemma be32_bytes (v : Z) :
  (v mod 256) + 256 * ((v / 256) mod 256) + 65536 * ((v / 65536) mod 256)
  + 16777216 * ((v / 16777216) mod 256) = v mod 4294967296.
Proof.
  replace (v / 65536) with (v / 256 / 256)
    by (rewrite Z.div_div by lia; reflexivity).
  replace (v / 16777216) with (v / 256 / 256 / 256)
    by (rewrite !Z.div_div by lia; reflexivity).
  pose proof (Z.div_mod v 256 ltac:(lia)).
  pose proof (Z.div_mod (v / 256) 256 ltac:(lia)).
  pose proof (Z.div_mod (v / 256 / 256) 256 ltac:(lia)).
  pose proof (Z.div_mod (v / 256 / 256 / 256) 256 ltac:(lia)).
  pose proof (Z.mod_pos_bound v 256 ltac:(lia)).
  pose proof (Z.mod_pos_bound (v / 256) 256 ltac:(lia)).
  pose proof (Z.mod_pos_bound (v / 256 / 256) 256 ltac:(lia)).
  pose proof (Z.mod_pos_bound (v / 256 / 256 / 256) 256 ltac:(lia)).
  apply Z.mod_unique_pos with (q := v / 256 / 256 / 256 / 256); lia.
Qed.

Lemma word_of_encode_be32 (v : Z) :
  word_of_object LittleEndian (rev (encode_be32 v)) = v mod 4294967296.
Proof.
  simpl. rewrite !u8_byte_of_Z. apply be32_bytes.
Qed.

Lemma to_int_of_int (v : Z) :
  -2147483648 <= v < 2147483648 -> to_int (v mod 4294967296) = v.
Proof.
  intros Hv. unfold to_int. rewrite Z.mod_mod by lia.
  destruct (Z.ltb_spec (v mod 4294967296) 2147483648) as [H|H].
  - destruct (Z_lt_le_dec v 0).
    + rewrite <- (Z.mod_add v 1) in H by lia.
      rewrite Z.mod_small in H; lia.
    + apply Z.mod_small. lia.
  - destruct (Z_lt_le_dec v 0).
    + rewrite <- (Z.mod_add v 1) by lia.
      rewrite Z.mod_small; lia.
    + rewrite Z.mod_small in H; lia.
Qed.

(** the object built by the four stores, read on either host *)
Lemma word_of_reversed (a0 a1 a2 a3 : byte) :
  word_of_object LittleEndian [a3; a2; a1; a0] = decode_be32 [a0; a1; a2; a3] /\
  word_of_object BigEndian [a3; a2; a1; a0] = decode_be32 [a3; a2; a1; a0].
Proof. simpl. lia. Qed.

(** C2, as amended. On a little-endian host, [extract_float] and
    [extract_int] read byte 0 as the most significant byte of the 32-bit
    pattern: encoding any [int] or any 32-bit float pattern into four
    big-endian bytes and decoding gives the value back. *)
Theorem extract_round_trip_little_endian (v f : Z) (a0 a1 a2 a3 : byte) :
  -2147483648 <= v < 2147483648 ->
  0 <= f < 4294967296 ->
  extract_int LittleEndian (encode_be32 v) 0 = Some v /\
  extract_float LittleEndian (encode_be32 f) 0 = Some f /\
  extract_float LittleEndian [a0; a1; a2; a3] 0
    = Some (decode_be32 [a0; a1; a2; a3]) /\
  extract_int LittleEndian [a0; a1; a2; a3] 0
    = Some (to_int (decode_be32 [a0; a1; a2; a3])).
Proof.
  intros Hv Hf. unfold extract_int, extract_float, encode_be32.
  rewrite !reversed_copy_four. cbn [option_map].
  pose proof (word_of_encode_be32 v) as Ev.
  pose proof (word_of_encode_be32 f) as Ef.
  unfold encode_be32 in Ev, Ef. cbn [rev app] in Ev, Ef.
  rewrite Ev, Ef, (to_int_of_int v Hv), (Z.mod_small f) by lia.
  destruct (word_of_reversed a0 a1 a2 a3) as [-> _]. auto.
Qed.

Lemma extract_round_trip_little_endian_witness :
  extract_int LittleEndian (encode_be32 (-2)) 0 = Some (-2) /\
  extract_float LittleEndian (encode_be32 1065353216) 0 = Some 1065353216.
Proof.
  destruct (extract_round_trip_little_endian (-2) 1065353216 x00 x00 x00 x00)
    as (Hi & Hf & _); [lia | lia |].
  split; [exact Hi | exact Hf].
Defined.

(** C2, as stated, fails: on a big-endian host byte 0 is read as the least
    significant byte, and the integer 1 comes back as 16777216. *)
Lemma extract_depends_on_host :
  extract_int BigEndian (encode_be32 1) 0 = Some 16777216 /\
  extract_int BigEndian (encode_be32 1) 0 <> Some 1 /\
  extract_float BigEndian (encode_be32 1065353216) 0 = Some 32831 /\
  ~ (forall host v, -2147483648 <= v < 2147483648 ->
       extract_int host (encode_be32 v) 0 = Some v).
Proof.
  repeat split; try reflexivity; try discriminate.
  intros H. specialize (H BigEndian 1 ltac:(lia)). discriminate.
Qed.

(** the four bytes read by [extract_float] and [extract_int] at [k] *)
Lemma reversed_copy_slice (data : list byte) (k : Z) :
  0 <= k -> k + 4 <= Z.of_nat (List.length data) ->
  reversed_copy data k = Some (rev (slice data (Z.to_nat k) 4)) /\
  List.length (slice data (Z.to_nat k) 4) = 4%nat.
Proof.
  intros Hk Hlen. unfold reversed_copy, slice.
  assert (Hi : forall i, index data (k + Z.of_nat i)
                         = nth_error (skipn (Z.to_nat k) data) i).
  { intros i. rewrite nth_error_skipn.
    replace (k + Z.of_nat i) with (Z.of_nat (Z.to_nat k + i)) by lia.
    apply index_nat. }
  pose proof (Hi 0%nat) as H0. pose proof (Hi 1%nat) as H1.
  pose proof (Hi 2%nat) as H2. pose proof (Hi 3%nat) as H3.
  rewrite Z.add_0_r in H0. cbn [Z.of_nat Pos.of_succ_nat Pos.succ] in H1, H2, H3.
  rewrite H0, H1, H2, H3.
  pose proof (length_skipn (Z.to_nat k) data) as Hs.
  destruct (skipn (Z.to_nat k) data) as [|a0 [|a1 [|a2 [|a3 rest]]]];
    simpl in Hs; try lia.
  split; reflexivity.
Qed.

Lemma extract_at (host : byte_order) (data : list byte) (k : Z) :
  0 <= k -> k + 4 <= Z.of_nat (List.length data) ->
  extract_float host data k = Some (word_at host data k) /\
  extract_int host data k = Some (to_int (word_at host data k)).
Proof.
  intros Hk Hlen. unfold extract_float, extract_int, word_at.
  destruct (reversed_copy_slice data k Hk Hlen) as [-> Hfour].
  destruct (slice data (Z.to_nat k) 4) as [|a0 [|a1 [|a2 [|a3 [|? ?]]]]];
    try discriminate.
  cbn [rev app option_map].
  destruct (word_of_reversed a0 a1 a2 a3) as [HL HB].
  destruct host; [rewrite HL | rewrite HB]; auto.
Qed.

(** the loop over [n] consecutive fields, from [k] *)
Lemma extract_floats_at (host : byte_order) (data : list byte) (n : nat) :
  forall k, 0 <= k -> k + 4 * Z.of_nat n <= Z.of_nat (List.length data) ->
  extract_floats host data n k =
    Some (map (fun i => word_at host data (k + 4 * Z.of_nat i)) (seq 0 n),
          k + 4 * Z.of_nat n).
Proof.
  induction n as [|n IH]; intros k Hk Hlen.
  - simpl. now rewrite Z.add_0_r.
  - cbn [extract_floats].
    destruct (extract_at host data k Hk ltac:(lia)) as [-> _].
    rewrite IH by lia. cbn [seq map]. rewrite Z.add_0_r.
    rewrite <- seq_shift, map_map. f_equal. f_equal.
    + f_equal. apply map_ext. intros i. f_equal. lia.
    + lia.
Qed.

(** what [decode] gives on a 79-byte buffer *)
Lemma decode_frame (host : byte_order) (data : list byte) :
  List.length data = 79%nat ->
  decode host data =
    Some {| accel := map (word_at host data) [1; 5; 9];
            ang_vel := map (word_at host data) [13; 17; 21];
            mag := map (word_at host data) [25; 29; 33];
            M := map (word_at host data) [37; 41; 45; 49; 53; 57; 61; 65; 69];
            T := double_div (double_of_int (to_int (word_at host data 73)))
                            TICKS_PER_SECOND |}.
Proof.
  intros Hlen. unfold decode.
  rewrite (extract_floats_at host data 3 1) by (try rewrite Hlen; lia).
  rewrite (extract_floats_at host data 3 _) by (try rewrite Hlen; lia).
  rewrite (extract_floats_at host data 3 _) by (try rewrite Hlen; lia).
  rewrite (extract_floats_at host data 9 _) by (try rewrite Hlen; lia).
  destruct (extract_at host data 73) as [_ Hint];
    [lia | rewrite Hlen; lia |].
  cbn [Z.of_nat Pos.of_succ_nat Pos.succ seq map]. simpl Z.add.
  rewrite Hint. reflexivity.
Qed.

(** the matrix handed to the quaternion conversion *)
Lemma rotation_transposes (M : list float) (i j : nat) :
  (i < 3)%nat -> (j < 3)%nat ->
  coeff (rotation M) i j = at_double M (j * 3 + i).
Proof.
  intros Hi Hj.
  destruct i as [|[|[|i]]]; [| | |lia];
    (destruct j as [|[|[|j]]]; [| | |lia]); reflexivity.
Qed.

(** ** Conversion of a [float] to [double] *)

Lemma digits2_pos_size (p : positive) : digits2_pos p = Pos.size p.
Proof. induction p; simpl; congruence. Qed.

Lemma digits2_pos_bound (p : positive) (n : Z) :
  0 <= n -> Zpos p < 2 ^ n -> Zpos (digits2_pos p) <= n.
Proof.
  intros Hn Hp. rewrite digits2_pos_size.
  pose proof (Pos.size_le p) as Hs.
  assert (H2 : 2 ^ Zpos (Pos.size p) <= 2 * Zpos p).
  { rewrite <- Pos2Z.inj_pow. change (2 * Zpos p) with (Zpos p~0). lia. }
  destruct (Z_le_gt_dec (Zpos (Pos.size p)) n) as [|Hgt]; [assumption|].
  assert (2 ^ (n + 1) <= 2 ^ Zpos (Pos.size p))
    by (apply Z.pow_le_mono_r; lia).
  rewrite Z.pow_add_r in H by lia. lia.
Qed.

Lemma digits2_pos_iter (m n : positive) :
  digits2_pos (Pos.iter xO m n) = (digits2_pos m + n)%positive.
Proof.
  induction n as [|n IH] using Pos.peano_ind.
  - simpl. lia.
  - rewrite Pos.iter_succ. simpl. rewrite IH. lia.
Qed.

Lemma Zpos_iter_xO (m n : positive) :
  Zpos (Pos.iter xO m n) = Zpos m * 2 ^ Zpos n.
Proof.
  induction n as [|n IH] using Pos.peano_ind.
  - simpl. lia.
  - rewrite Pos.iter_succ, Pos2Z.inj_succ, Z.pow_succ_r by lia.
    rewrite Pos2Z.inj_xO, IH. lia.
Qed.

Lemma binary_round_widen (s : bool) (m : positive) (e : Z) :
  let d := Zpos (digits2_pos m) in
  d < 53 -> -1074 <= d + e - 53 <= 971 ->
  binary_round 53 1024 s m e =
    S754_finite s (Pos.iter xO m (Z.to_pos (53 - d))) (d + e - 53).
Proof.
  intros d Hd He. unfold binary_round.
  assert (Hf : fexp 53 1024 (Zpos (digits2_pos m) + e) = d + e - 53).
  { unfold fexp, emin. fold d. lia. }
  rewrite Hf. unfold shl_align.
  assert (Hsub : d + e - 53 - e = Zneg (Z.to_pos (53 - d))).
  { rewrite <- Pos2Z.opp_pos, Z2Pos.id by lia. lia. }
  rewrite Hsub.
  set (mz := Pos.iter xO m (Z.to_pos (53 - d))).
  assert (Hdz : Zpos (digits2_pos mz) = 53).
  { unfold mz. rewrite digits2_pos_iter, Pos2Z.inj_add, Z2Pos.id by lia.
    fold d. lia. }
  unfold binary_round_aux, shr_fexp. cbn [Zdigits2 shr_record_of_loc].
  rewrite Hdz.
  assert (Hf2 : fexp 53 1024 (53 + (d + e - 53)) - (d + e - 53) = 0).
  { unfold fexp, emin. lia. }
  rewrite Hf2. cbn [shr shr_m loc_of_shr_record round_nearest_even
                    Zdigits2 shr_record_of_loc].
  rewrite Hdz, Hf2. cbn [shr shr_m].
  destruct (Z.leb_spec (d + e - 53) (1024 - 53)); [reflexivity|lia].
Qed.

Lemma float_value_finite (raw : float) (s : bool) (m : positive) (e : Z) :
  float_value raw = S754_finite s m e ->
  Zpos m < 2 ^ 24 /\ -149 <= e <= 104.
Proof.
  unfold float_value.
  pose proof (Z.mod_pos_bound (raw / 8388608) 256 ltac:(lia)) as He.
  pose proof (Z.mod_pos_bound raw 8388608 ltac:(lia)) as Hm.
  change (2 ^ 24) with 16777216.
  destruct (Z.eqb_spec ((raw / 8388608) mod 256) 0) as [E0|E0].
  - destruct (raw mod 8388608) as [|p|p] eqn:Em; intros H; inversion H; subst.
    lia.
  - destruct (Z.eqb_spec ((raw / 8388608) mod 256) 255) as [E1|E1].
    + destruct (raw mod 8388608 =? 0); discriminate.
    + destruct (raw mod 8388608 + 8388608) as [|p|p] eqn:Em;
        intros H; inversion H; subst. lia.
Qed.

(** the conversion only shifts the mantissa: the number is kept exactly *)
Lemma double_of_float_exact (raw : float) :
  same_number (float_value raw) (double_of_float raw).
Proof.
  unfold double_of_float.
  destruct (float_value raw) as [s|s| |s m e] eqn:E; try reflexivity.
  destruct (float_value_finite raw s m e E) as [Hm He].
  pose proof (digits2_pos_bound m 24 ltac:(lia) Hm) as Hd.
  pose proof (Pos2Z.is_pos (digits2_pos m)) as Hd0.
  rewrite binary_round_widen by lia.
  cbn [same_number]. split; [reflexivity|].
  exists (53 - Zpos (digits2_pos m)). split; [lia|]. split; [|lia].
  rewrite Zpos_iter_xO, Z2Pos.id by lia. reflexivity.
Qed.

(** ** The streaming loop *)

Section Properties.
Context {ros_time : RosTime} {eigen : EigenGeometry}.

Lemma bind_done {A B : Type} (m : stmt A) (k : A -> stmt B) (w w' : world) (a : A) :
  m w = (Done a, w') -> bind m k w = k a w'.
Proof. intros H. unfold bind. now rewrite H. Qed.

Lemma bind_returned {A B : Type} (m : stmt A) (k : A -> stmt B)
      (w w' : world) (c : Z) :
  m w = (Returned c, w') -> bind m k w = (Returned c, w').
Proof. intros H. unfold bind. now rewrite H. Qed.

(** a read of [n] bytes takes the next [n] bytes of the line *)
Lemma read_exact (n : nat) (w : world) (bytes rest : list byte) :
  port_open w = true -> rx w = bytes ++ rest -> List.length bytes = n ->
  read n w = (Done bytes, with_rx rest w).
Proof.
  intros Hopen Hrx Hlen. unfold read. rewrite Hopen, Hrx.
  assert (Hle : (n <=? List.length (bytes ++ rest))%nat = true).
  { apply Nat.leb_le. rewrite length_app. lia. }
  rewrite Hle. subst n.
  rewrite firstn_app, Nat.sub_diag, firstn_all, firstn_O, app_nil_r.
  rewrite skipn_app, Nat.sub_diag, skipn_all. reflexivity.
Qed.

(** one iteration on a frame that passes validation *)
Lemma iteration_valid (host : byte_order) (l : locals) (w : world)
      (frame rest : list byte) (f : fields) :
  port_open w = true -> rx w = frame ++ rest ->
  List.length frame = 79%nat ->
  validate_checksum frame 79 = Some true ->
  decode host frame = Some f ->
  let l' := with_data frame l in
  let imu := fill_imu l' f in
  let mag := fill_mag l' f in
  iteration host l w =
    (Done (with_msgs imu mag l'),
     emit (PublishedMag mag)
          (emit (PublishedImu imu) (with_call (frame, 79) (with_rx rest w)))).
Proof.
  intros Hopen Hrx Hlen Hsum Hdec l' imu mag. unfold iteration.
  rewrite (bind_done _ _ _ _ _ (read_exact _ w frame rest Hopen Hrx Hlen)).
  unfold bind, call_validate_checksum. cbn [l_data with_data].
  change DATA_LENGTH with 79. rewrite Hsum. cbn [negb].
  rewrite Hdec. reflexivity.
Qed.

(** one iteration on a frame that fails validation *)
Lemma iteration_invalid (host : byte_order) (l : locals) (w : world)
      (frame rest : list byte) :
  port_open w = true -> rx w = frame ++ rest ->
  List.length frame = 79%nat ->
  validate_checksum frame 79 = Some false ->
  iteration host l w =
    (Done (with_data frame l),
     emit (Logged ERROR "checksum failed on message")
          (with_call (frame, 79) (with_rx rest w))).
Proof.
  intros Hopen Hrx Hlen Hsum. unfold iteration.
  rewrite (bind_done _ _ _ _ _ (read_exact _ w frame rest Hopen Hrx Hlen)).
  unfold bind, call_validate_checksum. cbn [l_data with_data].
  change DATA_LENGTH with 79. rewrite Hsum. reflexivity.
Qed.

(** C3. On a little-endian host, for every 79-byte continuous frame the
    decoder reads, from offset 1, consecutive 4-byte big-endian fields in
    the order: 3 acceleration floats, 3 angular-rate floats, 3
    magnetic-field floats, 9 rotation-matrix floats, then the signed 32-bit
    timer count; the matrix given to the quaternion conversion has at row
    [i], column [j] the element [j*3+i] of the 9. *)
Theorem continuous_frame_layout (data : list byte) (l : locals) :
  List.length data = 79%nat ->
  exists f,
    decode LittleEndian data = Some f /\
    accel f = map (field_be data) [1; 5; 9]%nat /\
    ang_vel f = map (field_be data) [13; 17; 21]%nat /\
    mag f = map (field_be data) [25; 29; 33]%nat /\
    M f = map (field_be data) [37; 41; 45; 49; 53; 57; 61; 65; 69]%nat /\
    T f = double_div (double_of_int (to_int (field_be data 73)))
                     TICKS_PER_SECOND /\
    (forall i j, (i < 3)%nat -> (j < 3)%nat ->
       coeff (rotation (M f)) i j
       = double_of_float (field_be data (37 + 4 * (j * 3 + i)))) /\
    orientation (fill_imu l f) = Quaterniond (rotation (M f)).
Proof.
  intros Hlen. eexists.
  split; [apply (decode_frame LittleEndian data Hlen)|].
  cbn [accel ang_vel mag M T]. repeat (split; [reflexivity|]). split.
  - intros i j Hi Hj. rewrite rotation_transposes by assumption.
    destruct i as [|[|[|i]]]; [| | |lia];
      (destruct j as [|[|[|j]]]; [| | |lia]); reflexivity.
  - unfold fill_imu. cbn [orientation M].
    now destruct (Quaterniond _).
Qed.

(** C4. For every frame that passes validation, the published linear
    acceleration is each decoded acceleration component multiplied by 9.807,
    the published time stamp is [t0 + timer / 62500.0 - delay], and the Imu
    and the MagneticField samples of the frame carry the same stamp. *)
Theorem published_units_and_stamp (host : byte_order) (l : locals) (w : world)
        (frame rest : list byte) :
  port_open w = true -> rx w = frame ++ rest ->
  List.length frame = 79%nat ->
  validate_checksum frame 79 = Some true ->
  exists imu mag l' w',
    iteration host l w = (Done l', w') /\
    trace w' = trace w ++ [PublishedImu imu; PublishedMag mag] /\
    linear_acceleration imu =
      {| v_x := double_mul (double_at host frame 1) GRAVITY_CONSTANT;
         v_y := double_mul (double_at host frame 5) GRAVITY_CONSTANT;
         v_z := double_mul (double_at host frame 9) GRAVITY_CONSTANT |} /\
    stamp (imu_header imu) =
      Time_minus
        (Time_plus (l_t0 l)
           (Duration_of_double
              (double_div (double_of_int (to_int (word_at host frame 73)))
                          TICKS_PER_SECOND)))
        (Duration_of_double (l_delay l)) /\
    stamp (mag_header mag) = stamp (imu_header imu).
Proof.
  intros Hopen Hrx Hlen Hsum.
  pose proof (iteration_valid host l w frame rest _ Hopen Hrx Hlen Hsum
                (decode_frame host frame Hlen)) as Hrun.
  cbv zeta in Hrun. do 4 eexists. split; [exact Hrun|].
  split.
  { cbn [emit trace with_call with_rx]. now rewrite <- app_assoc. }
  repeat split; reflexivity.
Qed.

(** C9. For every frame that passes validation, the published angular
    velocity and magnetic field are the decoded floats themselves, converted
    to [double] and nothing else; the conversion keeps the number exactly. *)
Theorem rates_and_field_unscaled (host : byte_order) (l : locals) (w : world)
        (frame rest : list byte) :
  port_open w = true -> rx w = frame ++ rest ->
  List.length frame = 79%nat ->
  validate_checksum frame 79 = Some true ->
  exists imu mag l' w',
    iteration host l w = (Done l', w') /\
    trace w' = trace w ++ [PublishedImu imu; PublishedMag mag] /\
    angular_velocity imu =
      {| v_x := double_of_float (word_at host frame 13);
         v_y := double_of_float (word_at host frame 17);
         v_z := double_of_float (word_at host frame 21) |} /\
    magnetic_field mag =
      {| v_x := double_of_float (word_at host frame 25);
         v_y := double_of_float (word_at host frame 29);
         v_z := double_of_float (word_at host frame 33) |} /\
    (forall raw : float,
       same_number (float_value raw) (double_of_float raw)).
Proof.
  intros Hopen Hrx Hlen Hsum.
  pose proof (iteration_valid host l w frame rest _ Hopen Hrx Hlen Hsum
                (decode_frame host frame Hlen)) as Hrun.
  cbv zeta in Hrun. do 4 eexists. split; [exact Hrun|].
  split.
  { cbn [emit trace with_call with_rx]. now rewrite <- app_assoc. }
  split; [reflexivity|]. split; [reflexivity|].
  apply double_of_float_exact.
Qed.

(** C5. When the 79-byte frame of an iteration fails validation, the frame
    is dropped: only the error is logged, no Imu or MagneticField sample is
    emitted, [t0], [delay] and the messages are as before, and the loop goes
    on with the next read. *)
Theorem damaged_frame_dropped (host : byte_order) (l : locals) (w : world)
        (frame rest : list byte) (oks : list bool) :
  port_open w = true -> rx w = frame ++ rest ->
  List.length frame = 79%nat ->
  validate_checksum frame 79 = Some false ->
  exists l' w',
    iteration host l w = (Done l', w') /\
    trace w' = trace w ++ [Logged ERROR "checksum failed on message"] /\
    samples (trace w') = samples (trace w) /\
    l_t0 l' = l_t0 l /\ l_delay l' = l_delay l /\
    imu_msg l' = imu_msg l /\ mag_msg l' = mag_msg l /\
    rx w' = rest /\ port_open w' = true /\
    stream_loop host (true :: oks) l w = stream_loop host oks l' w'.
Proof.
  intros Hopen Hrx Hlen Hsum.
  pose proof (iteration_invalid host l w frame rest Hopen Hrx Hlen Hsum)
    as Hrun.
  do 2 eexists. split; [exact Hrun|].
  split; [reflexivity|]. split.
  { cbn [emit trace with_call with_rx]. unfold samples.
    rewrite filter_app. cbn [filter is_sample]. apply app_nil_r. }
  do 4 (split; [reflexivity|]). split; [reflexivity|].
  split; [exact Hopen|].
  cbn [stream_loop]. apply (bind_done _ _ _ _ _ Hrun).
Qed.

(** ** Safety of [main]: rules for [safe] *)

Lemma validate_checksum_defined (data : list byte) (length : Z) :
  call_ok (data, length) ->
  exists r, validate_checksum data length = Some r.
Proof.
  unfold call_ok. cbn [fst snd]. intros [Hlen Hsize].
  destruct (List.length data) as [|[|n]] eqn:E; [lia|lia|].
  assert (Hhi : exists hi, nth_error data n = Some hi).
  { destruct (nth_error data n) eqn:H; [eauto|].
    apply nth_error_None in H. lia. }
  assert (Hlo : exists lo, nth_error data (S n) = Some lo).
  { destruct (nth_error data (S n)) eqn:H; [eauto|].
    apply nth_error_None in H. lia. }
  destruct Hhi as [hi Hhi], Hlo as [lo Hlo].
  rewrite <- Hsize, <- E.
  rewrite (validate_checksum_eq data n hi lo E ltac:(lia) Hhi Hlo). eauto.
Qed.

Lemma trace_same (t : list event) :
  exists es, t = t ++ es /\ Forall event_ok es.
Proof. exists []. split; [symmetry; apply app_nil_r | constructor]. Qed.

Lemma trace_one (t : list event) (e : event) :
  event_ok e -> exists es, t ++ [e] = t ++ es /\ Forall event_ok es.
Proof. intros H. exists [e]. split; [reflexivity | constructor; [exact H | constructor]]. Qed.

Lemma calls_same (t : list (list byte * Z)) :
  exists cs, t = t ++ cs /\ Forall call_ok cs.
Proof. exists []. split; [symmetry; apply app_nil_r | constructor]. Qed.

Lemma calls_one (t : list (list byte * Z)) (c : list byte * Z) :
  call_ok c -> exists cs, t ++ [c] = t ++ cs /\ Forall call_ok cs.
Proof. intros H. exists [c]. split; [reflexivity | constructor; [exact H | constructor]]. Qed.

(** closes the goals of a statement that leaves [reply] alone and emits
    at most one event, once its cases are split *)
Ltac safe_finish :=
  cbn; repeat split;
  first [ assumption | apply trace_same | apply trace_one; exact I
        | apply calls_same | idtac ].

Ltac safe_primitive :=
  unfold safe, world_ok; intros w Hw; safe_finish.

Ltac safe_if_open :=
  intros w Hw; unfold world_ok in *; destruct (port_open w); safe_finish.

Lemma safe_ret {A : Type} (a : A) (Q : A -> Prop) : Q a -> safe (ret a) Q.
Proof. intros HQ. safe_primitive. Qed.

Lemma safe_return {A : Type} (c : Z) (Q : A -> Prop) : safe (return_ c) Q.
Proof. safe_primitive. Qed.


Lemma safe_bind {A B : Type} (m : stmt A) (k : A -> stmt B)
      (Q : A -> Prop) (Q' : B -> Prop) :
  safe m Q -> (forall a, Q a -> safe (k a) Q') -> safe (bind m k) Q'.
Proof.
  intros Hm Hk w Hw. destruct (Hm w Hw) as (H1 & H2 & H3 & H4).
  unfold bind. destruct (m w) as [[a|c| | |] w1]; cbn [fst snd] in *;
    try (repeat split; assumption); try contradiction.
  destruct (Hk a H4 w1 H1) as (K1 & K2 & K3 & K4).
  destruct H2 as (es & He & Hes), K2 as (es' & He' & Hes').
  destruct H3 as (cs & Hc & Hcs), K3 as (cs' & Hc' & Hcs').
  split; [assumption|]. split; [|split; [|assumption]].
  - exists (es ++ es'). rewrite He', He, app_assoc.
    split; [reflexivity | apply Forall_app; auto].
  - exists (cs ++ cs'). rewrite Hc', Hc, app_assoc.
    split; [reflexivity | apply Forall_app; auto].
Qed.

Lemma safe_when (b : bool) (m : stmt unit) :
  safe m (fun _ => True) -> safe (when b m) (fun _ => True).
Proof. intros Hm. destruct b; [exact Hm | now apply safe_ret]. Qed.

Lemma safe_ROS_LOG (lv : level) (text : string) :
  safe (ROS_LOG lv text) (fun _ => True).
Proof. safe_primitive. Qed.

Lemma safe_sleep (d : double) : safe (sleep d) (fun _ => True).
Proof. safe_primitive. Qed.

Lemma safe_advertise (topic : string) (q : Z) :
  safe (advertise topic q) (fun _ => True).
Proof. safe_primitive. Qed.

Lemma safe_publish_mag (msg : MagneticField) :
  safe (publish_mag msg) (fun _ => True).
Proof. safe_primitive. Qed.

Lemma safe_publish_imu (msg : Imu) :
  covariance_unknown msg -> safe (publish_imu msg) (fun _ => True).
Proof.
  intros Hmsg w Hw. cbn. repeat split; [exact Hw | | apply calls_same].
  apply trace_one. exact Hmsg.
Qed.

Lemma safe_serial_open (port : string) :
  safe (serial_open port) (fun _ => True).
Proof.
  unfold safe, world_ok, serial_open. intros w Hw.
  destruct (port_open w); [|destruct (open_results w) as [|[|] rest]];
    safe_finish.
Qed.

Lemma safe_is_open : safe is_open (fun _ => True).
Proof. safe_primitive. Qed.

Lemma safe_serial_close : safe serial_close (fun _ => True).
Proof. safe_primitive. Qed.

Lemma safe_set_option (o : port_option) : safe (set_option o) (fun _ => True).
Proof. unfold safe, set_option. safe_if_open. Qed.

Lemma safe_write (bytes : list byte) : safe (write bytes) (fun _ => True).
Proof. unfold safe, write. safe_if_open. Qed.

Lemma safe_read (n : nat) :
  safe (read n) (fun bytes => List.length bytes = n).
Proof.
  unfold safe, world_ok, read. intros w Hw.
  destruct (port_open w); [|safe_finish].
  destruct (Nat.leb_spec n (List.length (rx w))); safe_finish.
  rewrite length_firstn. lia.
Qed.

Lemma safe_get_mode : safe get_mode (fun _ => True).
Proof. safe_primitive. Qed.

Lemma safe_get_reply :
  safe get_reply (fun r => List.length r = Z.to_nat REPLY_LENGTH).
Proof. safe_primitive. Qed.

Lemma safe_set_mode3 (b : byte) : safe (set_mode3 b) (fun _ => True).
Proof. safe_primitive. Qed.

Lemma safe_read_reply : safe read_reply (fun _ => True).
Proof.
  unfold read_reply. eapply safe_bind; [apply safe_read|].
  intros bytes Hlen w Hw. unfold world_ok. safe_finish.
Qed.

Lemma safe_call_validate_checksum (data : list byte) (length : Z) :
  call_ok (data, length) ->
  safe (call_validate_checksum data length) (fun _ => True).
Proof.
  intros Hcall w Hw. unfold call_validate_checksum.
  destruct (validate_checksum_defined data length Hcall) as [r ->].
  unfold world_ok in *. cbn. repeat split; try assumption.
  - apply trace_same.
  - now apply calls_one.
Qed.

Lemma safe_load (a : list byte) (i : Z) :
  0 <= i < Z.of_nat (List.length a) -> safe (load a i) (fun _ => True).
Proof.
  intros Hi w Hw. unfold load. destruct (index_Some a i Hi) as [b ->].
  unfold world_ok in *. safe_finish.
Qed.


Lemma safe_validate_reply (r : list byte) :
  List.length r = Z.to_nat REPLY_LENGTH ->
  safe (call_validate_checksum r REPLY_LENGTH) (fun _ => True).
Proof.
  intros Hr. apply safe_call_validate_checksum. unfold call_ok. cbn [fst snd].
  rewrite Hr. unfold REPLY_LENGTH. simpl. lia.
Qed.

Lemma safe_load_reply (r : list byte) :
  List.length r = Z.to_nat REPLY_LENGTH -> safe (load r 2) (fun _ => True).
Proof.
  intros Hr. apply safe_load. rewrite Hr. unfold REPLY_LENGTH. simpl. lia.
Qed.

Create HintDb safe.

#[local] Hint Resolve safe_return safe_ROS_LOG safe_sleep safe_advertise
  safe_publish_mag safe_serial_open safe_is_open safe_serial_close
  safe_set_option safe_write safe_read safe_get_mode safe_get_reply
  safe_set_mode3 safe_read_reply safe_validate_reply safe_load_reply : safe.

(** walks through a sequence of statements *)
Ltac safe_auto :=
  cbv zeta;
  lazymatch goal with
  | |- safe (bind _ _) _ =>
      first [ eapply safe_bind; [solve [eauto with safe] | intros ? ?; safe_auto]
            | apply safe_bind with (Q := fun _ => True);
              [safe_auto | intros ? _; safe_auto] ]
  | |- safe (when _ _) _ => apply safe_when; safe_auto
  | |- safe (ret _) _ => apply safe_ret; exact I
  | |- safe (if negb ?b then _ else _) _ => destruct b; cbn [negb]; safe_auto
  | |- _ => solve [eauto with safe]
  end.

Lemma safe_close_if_open : safe close_if_open (fun _ => True).
Proof. unfold close_if_open. safe_auto. Qed.

#[local] Hint Resolve safe_close_if_open : safe.

Lemma safe_open_or_return (port : string) :
  safe (open_or_return port) (fun _ => True).
Proof. unfold open_or_return. safe_auto. Qed.

Lemma safe_set_options (baud : Z) : safe (set_options baud) (fun _ => True).
Proof. unfold set_options. safe_auto. Qed.

Lemma safe_mode_exchange : safe mode_exchange (fun _ => True).
Proof. unfold mode_exchange. safe_auto. Qed.

#[local] Hint Resolve safe_open_or_return safe_set_options
  safe_mode_exchange : safe.

Lemma safe_check_mode (port : string) (baud : Z) :
  safe (check_mode port baud) (fun _ => True).
Proof. unfold check_mode. safe_auto. Qed.

#[local] Hint Resolve safe_check_mode : safe.

Lemma safe_handshake (port : string) (baud : Z) (cfg : config) :
  safe (handshake port baud cfg) (fun _ => True).
Proof. unfold handshake. safe_auto. Qed.

Lemma length_poke_double (a : list double) (i : nat) (v : double) :
  List.length (poke_double a i v) = List.length a.
Proof.
  revert i. induction a as [|h t IH]; intros [|i]; simpl; auto.
Qed.

(** every sample built by the loop has its covariance flagged *)
Lemma fill_imu_covariance (l : locals) (f : fields) :
  locals_ok l ->
  covariance_unknown (fill_imu l f) /\
  List.length (orientation_covariance (fill_imu l f)) = 9%nat.
Proof.
  unfold locals_ok, covariance_unknown, fill_imu. cbn [orientation_covariance].
  intros Hl. rewrite length_poke_double. split; [|exact Hl].
  destruct (orientation_covariance (imu_msg l)); [discriminate|reflexivity].
Qed.

Lemma safe_iteration (host : byte_order) (l : locals) :
  locals_ok l -> safe (iteration host l) locals_ok.
Proof.
  intros Hl. unfold iteration.
  eapply safe_bind; [apply safe_read|]. intros bytes Hlen. cbv zeta.
  cbn [l_data with_data].
  eapply safe_bind.
  { apply safe_call_validate_checksum. unfold call_ok. cbn [fst snd].
    rewrite Hlen. unfold DATA_LENGTH. simpl. lia. }
  intros ok _.
  assert (Hl' : locals_ok (with_data bytes l)) by exact Hl.
  destruct ok; cbn [negb].
  - rewrite decode_frame by (rewrite Hlen; reflexivity).
    destruct (fill_imu_covariance (with_data bytes l)
                (Build_fields (map (word_at host bytes) [1; 5; 9])
                   (map (word_at host bytes) [13; 17; 21])
                   (map (word_at host bytes) [25; 29; 33])
                   (map (word_at host bytes)
                        [37; 41; 45; 49; 53; 57; 61; 65; 69])
                   (double_div
                      (double_of_int (to_int (word_at host bytes 73)))
                      TICKS_PER_SECOND)) Hl') as [Hcov Hnine].
    eapply safe_bind; [apply safe_publish_imu; exact Hcov|]. intros _ _.
    eapply safe_bind; [apply safe_publish_mag|]. intros _ _.
    apply safe_ret. exact Hnine.
  - eapply safe_bind; [apply safe_ROS_LOG|]. intros _ _.
    apply safe_ret. exact Hl'.
Qed.

Lemma safe_stream_loop (host : byte_order) (oks : list bool) :
  forall l, locals_ok l -> safe (stream_loop host oks l) locals_ok.
Proof.
  induction oks as [|[|] oks IH]; intros l Hl; cbn [stream_loop].
  - now apply safe_ret.
  - eapply safe_bind; [apply safe_iteration; exact Hl|].
    intros l' Hl'. now apply IH.
  - now apply safe_ret.
Qed.

Lemma safe_start_streaming (frame_id : string) (delay : double) (t0 : Time) :
  safe (start_streaming frame_id delay t0) locals_ok.
Proof.
  unfold start_streaming.
  eapply safe_bind; [apply safe_ROS_LOG|]. intros _ _.
  eapply safe_bind; [apply safe_advertise|]. intros _ _.
  eapply safe_bind; [apply safe_advertise|]. intros _ _.
  apply safe_ret. reflexivity.
Qed.

Lemma safe_main (host : byte_order) (cfg : config) :
  safe (main host cfg) (fun _ => True).
Proof.
  unfold main. destruct (param_port cfg) as [port|]; [|safe_auto].
  eapply safe_bind; [apply safe_open_or_return|]. intros _ _. cbv zeta.
  eapply safe_bind; [apply safe_set_options|]. intros _ _.
  eapply safe_bind; [apply safe_handshake|]. intros t0 _.
  eapply safe_bind; [apply safe_start_streaming|]. intros l Hl.
  eapply safe_bind; [apply safe_stream_loop; exact Hl|]. intros _ _.
  safe_auto.
Qed.

Lemma boot_ok (rx : list byte) (opens : list bool) : world_ok (boot rx opens).
Proof. reflexivity. Qed.

(** C8. Every Imu sample handed to the publisher, in every run of [main],
    has [orientation_covariance[0]] set to -1. *)
Theorem imu_covariance_flagged (host : byte_order) (cfg : config)
        (rx : list byte) (opens : list bool) (msg : Imu) :
  In (PublishedImu msg) (trace (snd (main host cfg (boot rx opens)))) ->
  nth_error (orientation_covariance msg) 0 = Some (double_of_int (-1)).
Proof.
  intros Hin.
  destruct (safe_main host cfg (boot rx opens) (boot_ok rx opens))
    as (_ & (es & Hes & Hok) & _).
  rewrite Hes in Hin. cbn [boot trace app] in Hin.
  rewrite Forall_forall in Hok. exact (Hok _ Hin).
Qed.

(** C10. Every call of [validate_checksum] in a run of [main] passes the
    length 4 or 79, which is the size of the buffer passed; the call is
    then in bounds and returns, and no run of [main] meets undefined
    behaviour. *)
Theorem checksum_calls_in_bounds (host : byte_order) (cfg : config)
        (rx : list byte) (opens : list bool) :
  fst (main host cfg (boot rx opens)) <> Undefined /\
  Forall (fun c : list byte * Z =>
            let (data, length) := c in
            (length = 4 \/ length = 79) /\
            Z.of_nat (List.length data) = length /\
            2 <= length <= Z.of_nat (List.length data) /\
            exists r, validate_checksum data length = Some r)
         (calls (snd (main host cfg (boot rx opens)))).
Proof.
  destruct (safe_main host cfg (boot rx opens) (boot_ok rx opens))
    as (_ & _ & (cs & Hcs & Hok) & Hres).
  split.
  - intros Hund. rewrite Hund in Hres. exact Hres.
  - rewrite Hcs. cbn [boot calls app].
    apply Forall_impl with (2 := Hok). intros [data length] Hcall.
    pose proof (validate_checksum_defined data length Hcall) as Hdef.
    destruct Hcall as [Hlen Hsize]. cbn [fst snd] in Hlen, Hsize.
    repeat split; try assumption; lia.
Qed.

(** ** The handshake *)


(** one exchange: the command is written, the reply read and validated *)
Lemma mode_exchange_run (w : world) (r rest : list byte) (ok : bool) :
  port_open w = true -> rx w = r ++ rest -> List.length r = 4%nat ->
  validate_checksum r 4 = Some ok ->
  mode_exchange w =
    (Done ok,
     with_call (r, 4)
       (with_reply r (with_rx rest (emit (Written (buffer (mode w) 4)) w)))).
Proof.
  intros Hopen Hrx Hlen Hv. unfold mode_exchange.
  rewrite (bind_done _ _ w w (mode w)) by reflexivity.
  rewrite (bind_done _ _ w (emit (Written (buffer (mode w) 4)) w) tt)
    by (unfold write; now rewrite Hopen).
  rewrite (bind_done _ _ _
             (with_reply r (with_rx rest (emit (Written (buffer (mode w) 4)) w)))
             tt).
  2:{ unfold read_reply.
      rewrite (bind_done _ _ _ _ _
                 (read_exact _ (emit (Written (buffer (mode w) 4)) w) r rest
                             Hopen Hrx Hlen)).
      reflexivity. }
  rewrite (bind_done _ _ _ _ r) by reflexivity.
  unfold call_validate_checksum. change REPLY_LENGTH with 4.
  cbn [reply with_reply]. now rewrite Hv.
Qed.

Lemma bind_assoc {A B C : Type} (m : stmt A) (f : A -> stmt B)
      (g : B -> stmt C) (w : world) :
  bind (bind m f) g w = bind m (fun a => bind (f a) g) w.
Proof. unfold bind. now destruct (m w) as [[a|c| | |] w']. Qed.

(** runs the first statement of a sequence of statements with no call of
    [validate_checksum] in it, on a world whose fields are known *)
Ltac run_head :=
  lazymatch goal with
  | |- bind (bind _ _) _ _ = _ => rewrite bind_assoc
  | |- bind (when true _) _ _ = _ => cbn [when]
  | |- when true _ _ = _ => cbn [when]
  | |- bind mode_exchange _ _ = _ => fail
  | |- bind (check_mode _ _) _ _ = _ => fail
  | |- bind (handshake _ _ _) _ _ = _ => unfold handshake
  | |- bind ?m ?k ?w = _ =>
      let r := eval cbv -[app validate_checksum] in (m w) in
      lazymatch r with
      | (Done ?a, ?w1) =>
          rewrite (bind_done m k w w1 a) by reflexivity; cbv beta
      | (Returned ?c, ?w1) =>
          rewrite (bind_returned m k w w1 c) by reflexivity
      end
  end.

(** runs an exchange whose reply is [r], with the result [H] of its
    validation *)
Ltac run_exchange r rest H :=
  lazymatch goal with
  | |- bind mode_exchange ?k ?w = _ =>
      lazymatch type of H with
      | _ = Some ?ok =>
          let w1 := eval cbv -[app validate_checksum] in
                    (with_call (r, 4)
                       (with_reply r
                          (with_rx rest
                             (emit (Written (buffer (mode w) 4)) w)))) in
          rewrite (bind_done mode_exchange k w w1 ok)
            by (apply (mode_exchange_run w r rest ok); auto);
          cbv beta
      end
  end.

(** the last statement: its outcome and the world it leaves *)
Ltac run_last :=
  lazymatch goal with
  | |- ?lhs = _ =>
      let r := eval cbv -[app validate_checksum] in lhs in
      exact (@eq_refl _ r)
  end.

Lemma check_mode_retry (port : string) (baud : Z) (w : world)
      (r1 r2 rest : list byte) (opens : list bool) (ok2 : bool) :
  port_open w = true -> mode w = mode_init ->
  open_results w = true :: opens ->
  rx w = r1 ++ r2 ++ rest ->
  List.length r1 = 4%nat -> List.length r2 = 4%nat ->
  validate_checksum r1 4 = Some false ->
  validate_checksum r2 4 = Some ok2 ->
  check_mode port baud w =
    ((if ok2 then Done tt else Returned (-1)),
     {| rx := rest; open_results := opens; port_open := ok2;
        mode := mode_init; reply := r2;
        trace := trace w ++ retry_events port baud
                   ++ (if ok2 then []
                       else [Logged ERROR "failed to get mode"; Closed]);
        calls := calls w ++ [(r1, 4); (r2, 4)] |}).
Proof.
  intros Hopen Hmode Hopens Hrx H1 H2 Hv1 Hv2.
  destruct w as [rx0 opens0 po mode0 reply0 trace0 calls0].
  cbn [port_open mode open_results rx trace calls] in *. subst.
  destruct ok2;
    (etransitivity;
     [ unfold check_mode;
       run_exchange r1 (r2 ++ rest) Hv1; cbn [negb];
       repeat run_head;
       run_exchange r2 rest Hv2; cbn [negb]; run_last
     | rewrite <- ?app_assoc; reflexivity ]).
Qed.

(** two replies that fail validation: [main] returns -1 after the second *)
Lemma main_double_failure (host : byte_order) (cfg : config) (port : string)
      (r1 r2 rest : list byte) (opens : list bool) :
  param_port cfg = Some port ->
  List.length r1 = 4%nat -> List.length r2 = 4%nat ->
  validate_checksum r1 4 = Some false ->
  validate_checksum r2 4 = Some false ->
  let baud := param (param_baud cfg) 115200 in
  exists w',
    main host cfg (boot (r1 ++ r2 ++ rest) (true :: true :: opens))
      = (Returned (-1), w') /\
    trace w' =
      [Opened port; OptionSet (baud_rate baud); OptionSet flow_control_none;
       OptionSet parity_none; OptionSet stop_bits_one;
       Written stop; Logged WARN "Wait 0.1s"; Slept double_tenth]
      ++ retry_events port baud
      ++ [Logged ERROR "failed to get mode"; Closed].
Proof.
  intros Hport H1 H2 Hv1 Hv2 baud.
  eexists. split.
  - unfold main. rewrite Hport. cbv zeta. fold baud.
    repeat run_head.
    erewrite bind_returned
      by (apply (check_mode_retry port baud _ r1 r2 rest opens false); auto).
    reflexivity.
  - reflexivity.
Qed.

(** C6. The recovery of the mode query is attempted exactly once: when the
    first reply fails validation the port is closed and opened again and the
    query is sent a second time, and that is the last query; when the second
    reply fails too, [main] returns -1, a non-zero exit, and no sample was
    emitted. *)
Theorem mode_query_retried_once (host : byte_order) (cfg : config)
        (port : string) (baud : Z) (w : world)
        (r1 r2 rest : list byte) (opens : list bool) (ok2 : bool) :
  param_port cfg = Some port ->
  port_open w = true -> mode w = mode_init ->
  open_results w = true :: opens ->
  rx w = r1 ++ r2 ++ rest ->
  List.length r1 = 4%nat -> List.length r2 = 4%nat ->
  validate_checksum r1 4 = Some false ->
  validate_checksum r2 4 = Some ok2 ->
  (exists w',
     check_mode port baud w = ((if ok2 then Done tt else Returned (-1)), w') /\
     trace w' = trace w ++ retry_events port baud
                  ++ (if ok2 then []
                      else [Logged ERROR "failed to get mode"; Closed]) /\
     queries (retry_events port baud)
       = [Written mode_init; Written mode_init] /\
     rx w' = rest) /\
  (ok2 = false ->
   exists w',
     main host cfg (boot (r1 ++ r2 ++ rest) (true :: true :: opens))
       = (Returned (-1), w') /\
     -1 <> 0 /\
     samples (trace w') = [] /\
     queries (trace w') = [Written mode_init; Written mode_init]).
Proof.
  intros Hport Hopen Hmode Hopens Hrx H1 H2 Hv1 Hv2. split.
  - eexists. split; [|split; [|split]].
    + apply (check_mode_retry port baud w r1 r2 rest opens ok2); auto.
    + reflexivity.
    + reflexivity.
    + reflexivity.
  - intros ->.
    destruct (main_double_failure host cfg port r1 r2 rest opens)
      as (w' & Hrun & Htrace); auto.
    exists w'. split; [exact Hrun|]. split; [lia|].
    rewrite Htrace. split; reflexivity.
Qed.

End Properties.

(** ** The conversion of a rotation matrix to a quaternion *)


















(** ** The literals and two start-up scenarios *)

Example literals_are_correctly_rounded :
  GRAVITY_CONSTANT = double_div (double_of_int 9807) (double_of_int 1000) /\
  TICKS_PER_SECOND = double_of_int 62500 /\
  double_tenth = double_div (double_of_int 1) (double_of_int 10).
Proof. repeat split; vm_compute; reflexivity. Qed.

(** a first mode query answered badly and a second answered well: the
    handshake completes, one frame is streamed and [main] returns 0 *)
Example recovery_reaches_streaming :
  fst (main LittleEndian sample_config (boot sample_input [true; true]))
    = Returned 0 /\
  List.length (samples (trace (snd (main LittleEndian sample_config
                                         (boot sample_input [true; true])))))
    = 2%nat.
Proof. split; vm_compute; reflexivity. Qed.

(** a reply to the preset command that fails validation is fatal *)
Example preset_failure_is_fatal :
  fst (main LittleEndian sample_config
            (boot (reply_active ++ reply_damaged ++ sample_frame) [true]))
    = Returned (-1) /\
  samples (trace (snd (main LittleEndian sample_config
                            (boot (reply_active ++ reply_damaged ++ sample_frame)
                                  [true]))))
    = [].
Proof. split; vm_compute; reflexivity. Qed.

(** ** The properties on the reference collaborators *)

Lemma continuous_frame_layout_witness :
  List.length sample_frame = 79%nat /\
  exists f,
    decode LittleEndian sample_frame = Some f /\
    accel f = [0; 0; 1065353216] /\
    T f = double_of_int 1.
Proof.
  assert (Hlen : List.length sample_frame = 79%nat) by reflexivity.
  split; [exact Hlen|].
  destruct (continuous_frame_layout sample_frame sample_locals Hlen)
    as (f & Hdec & Hacc & _ & _ & _ & HT & _).
  exists f. split; [exact Hdec|]. split.
  - rewrite Hacc. reflexivity.
  - rewrite HT. reflexivity.
Defined.

(** on a big-endian host the fields of the worked frame are not read
    big-endian: the acceleration 1.0 (3f 80 00 00) is read as the pattern
    00 00 80 3f *)
Lemma frame_layout_depends_on_host :
  exists f,
    decode BigEndian sample_frame = Some f /\
    accel f = [0; 0; 32831] /\
    map (field_be sample_frame) [1; 5; 9]%nat = [0; 0; 1065353216] /\
    accel f <> map (field_be sample_frame) [1; 5; 9]%nat.
Proof.
  eexists. split; [apply (decode_frame BigEndian sample_frame eq_refl)|].
  cbn [accel]. split; [reflexivity|]. split; [reflexivity|].
  intros H. vm_compute in H. discriminate H.
Qed.

(** the frame with acceleration (0, 0, 1) g and timer 62500, read at second
    5 with no delay: the z acceleration is 9.807 and the stamp second 6 *)
Lemma published_units_and_stamp_witness :
  exists imu mag l' w',
    iteration LittleEndian sample_locals (streaming_world sample_frame)
      = (Done l', w') /\
    trace w' = [PublishedImu imu; PublishedMag mag] /\
    v_z (linear_acceleration imu) = GRAVITY_CONSTANT /\
    stamp (imu_header imu) = 5000000000 + 1000000000 - 0 /\
    stamp (mag_header mag) = stamp (imu_header imu).
Proof.
  destruct (published_units_and_stamp LittleEndian sample_locals
              (streaming_world sample_frame) sample_frame [])
    as (imu & mag & l' & w' & Hrun & Htrace & Hacc & Hstamp & Hmag);
    try reflexivity.
  exists imu, mag, l', w'. split; [exact Hrun|]. split; [exact Htrace|].
  split; [rewrite Hacc; reflexivity|]. split; [|exact Hmag].
  rewrite Hstamp. reflexivity.
Defined.

(** a frame with the angular rates (1, -2, 0.5) and the magnetic field
    (0.25, -0.5, 2) *)
Lemma rates_and_field_unscaled_witness :
  validate_checksum turning_frame 79 = Some true /\
  exists imu mag l' w',
    iteration LittleEndian sample_locals (streaming_world turning_frame)
      = (Done l', w') /\
    angular_velocity imu =
      {| v_x := S754_finite false 4503599627370496 (-52);
         v_y := S754_finite true 4503599627370496 (-51);
         v_z := S754_finite false 4503599627370496 (-53) |} /\
    magnetic_field mag =
      {| v_x := S754_finite false 4503599627370496 (-54);
         v_y := S754_finite true 4503599627370496 (-53);
         v_z := S754_finite false 4503599627370496 (-51) |}.
Proof.
  assert (Hsum : validate_checksum turning_frame 79 = Some true)
    by (vm_compute; reflexivity).
  split; [exact Hsum|].
  destruct (rates_and_field_unscaled LittleEndian sample_locals
              (streaming_world turning_frame) turning_frame [])
    as (imu & mag & l' & w' & Hrun & _ & Hang & Hmag & _);
    try reflexivity; try exact Hsum.
  exists imu, mag, l', w'. split; [exact Hrun|].
  split; [rewrite Hang|rewrite Hmag]; vm_compute; reflexivity.
Defined.

(** the angular rate 1.0 arrives as the 32-bit pattern 3f800000 and is
    published as the [double] 1.0, whose pattern is 3ff0000000000000: the
    float was converted, its bits are not the bits published *)
Lemma rates_are_converted :
  exists imu mag l' w',
    iteration LittleEndian sample_locals (streaming_world turning_frame)
      = (Done l', w') /\
    trace w' = [PublishedImu imu; PublishedMag mag] /\
    field_be turning_frame 13 = 1065353216 /\
    binary64_pattern (v_x (angular_velocity imu))
      = Some 4607182418800017408 /\
    binary64_pattern (v_x (angular_velocity imu))
      <> Some (field_be turning_frame 13).
Proof.
  assert (Hsum : validate_checksum turning_frame 79 = Some true)
    by (vm_compute; reflexivity).
  pose proof (iteration_valid LittleEndian sample_locals
                (streaming_world turning_frame) turning_frame [] _
                eq_refl eq_refl eq_refl Hsum
                (decode_frame LittleEndian turning_frame eq_refl)) as Hrun.
  cbv zeta in Hrun. do 4 eexists. split; [exact Hrun|].
  split; [reflexivity|]. split; [vm_compute; reflexivity|].
  split; [vm_compute; reflexivity|].
  intros H. vm_compute in H. discriminate H.
Qed.

Lemma damaged_frame_dropped_witness :
  validate_checksum damaged_frame 79 = Some false /\
  exists l' w',
    iteration LittleEndian sample_locals
              (streaming_world (damaged_frame ++ sample_frame))
      = (Done l', w') /\
    samples (trace w') = [] /\
    rx w' = sample_frame /\
    stream_loop LittleEndian [true; true] sample_locals
                (streaming_world (damaged_frame ++ sample_frame))
      = stream_loop LittleEndian [true] l' w'.
Proof.
  assert (Hbad : validate_checksum damaged_frame 79 = Some false)
    by (vm_compute; reflexivity).
  split; [exact Hbad|].
  destruct (damaged_frame_dropped LittleEndian sample_locals
              (streaming_world (damaged_frame ++ sample_frame))
              damaged_frame sample_frame [true])
    as (l' & w' & Hrun & _ & Hnone & _ & _ & _ & _ & Hrx & _ & Hloop);
    try reflexivity; try exact Hbad.
  exists l', w'. repeat split; assumption.
Defined.

Lemma mode_query_retried_once_witness :
  validate_checksum reply_damaged 4 = Some false /\
  (exists w',
     check_mode "/dev/ttyUSB0" 115200
                (opened_world (reply_damaged ++ reply_active ++ []))
       = (Done tt, w') /\ rx w' = []) /\
  (exists w',
     main LittleEndian sample_config
          (boot (reply_damaged ++ reply_damaged ++ sample_frame)
                [true; true])
       = (Returned (-1), w') /\
     samples (trace w') = []).
Proof.
  assert (Hbad : validate_checksum reply_damaged 4 = Some false)
    by (vm_compute; reflexivity).
  assert (Hgood : validate_checksum reply_active 4 = Some true)
    by (vm_compute; reflexivity).
  split; [exact Hbad|]. split.
  - destruct (mode_query_retried_once LittleEndian sample_config
                "/dev/ttyUSB0" 115200
                (opened_world (reply_damaged ++ reply_active ++ []))
                reply_damaged reply_active [] [] true)
      as [(w' & Hrun & _ & _ & Hrx) _];
      try reflexivity; try assumption.
    exists w'. split; assumption.
  - destruct (mode_query_retried_once LittleEndian sample_config
                "/dev/ttyUSB0" 115200
                (opened_world (reply_damaged ++ reply_damaged ++ sample_frame))
                reply_damaged reply_damaged sample_frame [] false)
      as [_ Hmain]; try reflexivity; try assumption.
    destruct (Hmain eq_refl) as (w' & Hrun & _ & Hnone & _).
    exists w'. split; assumption.
Defined.

(** a run of [main]: the first reply is damaged, the second is not, and
    one frame is streamed *)
Lemma imu_covariance_flagged_witness :
  exists msg,
    In (PublishedImu msg)
       (trace (snd (main LittleEndian sample_config
                         (boot sample_input [true; true])))) /\
    nth_error (orientation_covariance msg) 0 = Some (double_of_int (-1)).
Proof.
  assert (Hin : exists msg,
             In (PublishedImu msg)
                (trace (snd (main LittleEndian sample_config
                                  (boot sample_input [true; true]))))).
  { match goal with
    | |- exists _, In _ ?tr =>
        let t := eval vm_compute in tr in change tr with t
    end.
    eexists. cbn [In]. repeat (first [left; reflexivity | right]). }
  destruct Hin as [msg Hin]. exists msg. split; [exact Hin|].
  exact (@imu_covariance_flagged nanosecond_clock double_geometry
           LittleEndian sample_config sample_input
           [true; true] msg Hin).
Defined.

(* ===================================================================== *)
(** * Part III: further properties of the code                            *)
(* ===================================================================== *)

(** ** More on [validate_checksum] *)

(** what the function computes when the buffer holds at least [length]
    bytes *)
Lemma validate_checksum_within (data : list byte) (n : nat) (hi lo : byte) :
  Z.of_nat (S (S n)) <= 65535 ->
  nth_error data n = Some hi -> nth_error data (S n) = Some lo ->
  validate_checksum data (Z.of_nat (S (S n))) =
    Some (byte_sum (firstn n data) mod 65536 =? 256 * u8 hi + u8 lo).
Proof.
  intros Hmax Hhi Hlo. unfold validate_checksum.
  assert (Hn : (n < List.length data)%nat)
    by (apply nth_error_Some; congruence).
  pose proof (checksum_loop_sum data (Z.of_nat (S (S n))) n loop_fuel
                0%nat 0) as Hloop.
  change (Z.of_nat 0) with 0 in Hloop.
  rewrite Hloop; try (unfold loop_fuel; lia); try reflexivity.
  replace (Z.of_nat (S (S n)) - 2) with (Z.of_nat n) by lia.
  replace (Z.of_nat (S (S n)) - 1) with (Z.of_nat (S n)) by lia.
  rewrite !index_nat, Hhi, Hlo. simpl Nat.add.
  pose proof (u8_range hi). pose proof (u8_range lo).
  rewrite Z.shiftl_mul_pow2 by lia. unfold to_ushort.
  change (2 ^ 8) with 256.
  rewrite (Z.mod_small (u8 hi * 256)) by lia.
  rewrite (Z.mod_small (u8 hi * 256 + u8 lo)) by lia.
  now rewrite (Z.mul_comm (u8 hi)).
Qed.

Lemma index_None (data : list byte) (i : Z) :
  i < 0 \/ Z.of_nat (List.length data) <= i -> index data i = None.
Proof.
  intros H. unfold index. destruct (Z.ltb_spec i 0); [reflexivity|].
  apply nth_error_None. lia.
Qed.

Lemma nth_error_defined (data : list byte) (i : nat) :
  (i < List.length data)%nat -> exists b, nth_error data i = Some b.
Proof.
  intros Hi. destruct (nth_error data i) eqn:E; [eauto|].
  apply nth_error_None in E. lia.
Qed.

Lemma validate_checksum_outside (data : list byte) (length : Z) :
  length < 2 \/ Z.of_nat (List.length data) < length ->
  validate_checksum data length = None.
Proof.
  intros [Hlt|Hgt]; unfold validate_checksum.
  - destruct (checksum_loop loop_fuel data length 0 0); [|reflexivity].
    rewrite (index_None data (length - 2)) by lia. reflexivity.
  - destruct (checksum_loop loop_fuel data length 0 0); [|reflexivity].
    rewrite (index_None data (length - 1)) by lia.
    now destruct (index data (length - 2)).
Qed.

(** X1. [validate_checksum] reads out of the buffer exactly when the length
    passed is below 2 or above the size of the buffer. *)
Theorem validate_checksum_undefined_iff (data : list byte) (length : Z) :
  0 <= length <= 65535 ->
  (validate_checksum data length = None
   <-> length < 2 \/ Z.of_nat (List.length data) < length).
Proof.
  intros Hrange. split.
  - intros Hnone.
    destruct (Z_lt_le_dec length 2) as [|H2]; [now left|]. right.
    destruct (Z_lt_le_dec (Z.of_nat (List.length data)) length) as [|Hle];
      [assumption|exfalso].
    destruct (Z.to_nat length) as [|[|n]] eqn:E; try lia.
    destruct (nth_error_defined data n ltac:(lia)) as [hi Hhi].
    destruct (nth_error_defined data (S n) ltac:(lia)) as [lo Hlo].
    replace length with (Z.of_nat (S (S n))) in Hnone by lia.
    rewrite (validate_checksum_within data n hi lo) in Hnone by (auto; lia).
    discriminate.
  - apply validate_checksum_outside.
Qed.

Lemma validate_checksum_undefined_iff_witness :
  validate_checksum [x01] 1 = None /\
  validate_checksum [x01; x00; x01] 4 = None.
Proof.
  split.
  - apply (proj2 (validate_checksum_undefined_iff [x01] 1 ltac:(lia))).
    left. lia.
  - apply (proj2 (validate_checksum_undefined_iff [x01; x00; x01] 4
                    ltac:(lia))).
    right. simpl. lia.
Defined.

(** X2. Bytes of the buffer beyond the length passed are not looked at. *)
Theorem validate_checksum_ignores_tail (data extra : list byte) (length : Z) :
  0 <= length <= 65535 ->
  length <= Z.of_nat (List.length data) ->
  validate_checksum (data ++ extra) length = validate_checksum data length.
Proof.
  intros Hrange Hle.
  destruct (Z_lt_le_dec length 2) as [Hlt|H2].
  - rewrite !validate_checksum_outside by now left. reflexivity.
  - destruct (Z.to_nat length) as [|[|n]] eqn:E; try lia.
    destruct (nth_error_defined data n ltac:(lia)) as [hi Hhi].
    destruct (nth_error_defined data (S n) ltac:(lia)) as [lo Hlo].
    replace length with (Z.of_nat (S (S n))) by lia.
    rewrite (validate_checksum_within data n hi lo) by (auto; lia).
    rewrite (validate_checksum_within (data ++ extra) n hi lo); try lia.
    + rewrite firstn_app.
      replace (n - List.length data)%nat with 0%nat by lia.
      now rewrite firstn_O, app_nil_r.
    + rewrite nth_error_app1 by lia. exact Hhi.
    + rewrite nth_error_app1 by lia. exact Hlo.
Qed.

Lemma validate_checksum_ignores_tail_witness :
  validate_checksum (reply_active ++ [xff; xff]) 4
  = validate_checksum reply_active 4.
Proof.
  apply (validate_checksum_ignores_tail reply_active [xff; xff] 4).
  - lia.
  - simpl. lia.
Defined.

Lemma byte_sum_permutation (p q : list byte) :
  Permutation p q -> byte_sum p = byte_sum q.
Proof.
  induction 1 as [|x p q _ IH|x y p|p q r _ IH1 _ IH2]; simpl; lia.
Qed.

(** a frame: a payload followed by the two bytes of a checksum *)
Lemma validate_checksum_frame (payload : list byte) (hi lo : byte) :
  Z.of_nat (List.length payload) + 2 <= 65535 ->
  validate_checksum (payload ++ [hi; lo])
                    (Z.of_nat (List.length payload) + 2) =
    Some (byte_sum payload mod 65536 =? 256 * u8 hi + u8 lo).
Proof.
  intros Hmax.
  replace (Z.of_nat (List.length payload) + 2)
    with (Z.of_nat (S (S (List.length payload)))) by lia.
  rewrite (validate_checksum_within _ (List.length payload) hi lo).
  - now rewrite firstn_app, Nat.sub_diag, firstn_all, firstn_O, app_nil_r.
  - lia.
  - now rewrite nth_error_app2, Nat.sub_diag by lia.
  - rewrite nth_error_app2 by lia.
    now replace (S (List.length payload) - List.length payload)%nat
      with 1%nat by lia.
Qed.

(** X3. The checksum does not see the order of the bytes it covers: a frame
    whose payload bytes are rearranged validates exactly as the frame did. *)
Theorem validate_checksum_blind_to_order (p q : list byte) (hi lo : byte) :
  Permutation p q ->
  Z.of_nat (List.length p) + 2 <= 65535 ->
  validate_checksum (q ++ [hi; lo]) (Z.of_nat (List.length q) + 2)
  = validate_checksum (p ++ [hi; lo]) (Z.of_nat (List.length p) + 2).
Proof.
  intros Hperm Hmax.
  pose proof (Permutation_length Hperm) as Hlen.
  rewrite !validate_checksum_frame by lia.
  now rewrite (byte_sum_permutation p q Hperm).
Qed.

Lemma validate_checksum_blind_to_order_witness :
  validate_checksum [x2d; xd4; x01; x01] 4 = validate_checksum reply_active 4.
Proof.
  apply (validate_checksum_blind_to_order [xd4; x2d] [x2d; xd4] x01 x01).
  - apply perm_swap.
  - simpl. lia.
Defined.

(** *** One byte changed *)

Lemma length_poke (data : list byte) (i : nat) (b : byte) :
  List.length (poke data i b) = List.length data.
Proof.
  revert i. induction data as [|x t IH]; intros [|i]; simpl; auto.
Qed.

Lemma nth_error_poke (data : list byte) (i j : nat) (b : byte) :
  (i < List.length data)%nat ->
  nth_error (poke data i b) j
  = if (i =? j)%nat then Some b else nth_error data j.
Proof.
  revert i j. induction data as [|x t IH]; intros [|i] [|j] Hi;
    simpl in *; try lia; try reflexivity.
  apply IH. lia.
Qed.

Lemma firstn_poke (data : list byte) (n i : nat) (b : byte) :
  firstn n (poke data i b) = poke (firstn n data) i b.
Proof.
  revert n i. induction data as [|x t IH]; intros [|n] [|i]; simpl;
    try reflexivity.
  now rewrite IH.
Qed.

Lemma byte_sum_poke (data : list byte) (i : nat) (x y : byte) :
  nth_error data i = Some x ->
  byte_sum (poke data i y) = byte_sum data - u8 x + u8 y.
Proof.
  revert i. induction data as [|h t IH]; intros [|i] H; simpl in *;
    try discriminate.
  - inversion H; subst. lia.
  - rewrite (IH i H). lia.
Qed.

Lemma poke_beyond (data : list byte) (i : nat) (b : byte) :
  (List.length data <= i)%nat -> poke data i b = data.
Proof.
  revert i. induction data as [|h t IH]; intros [|i] H; simpl in *;
    try reflexivity; try lia.
  now rewrite IH by lia.
Qed.

Lemma mod_shift_differs (s d r : Z) :
  s mod 65536 = r -> d <> 0 -> -65536 < d < 65536 ->
  (s + d) mod 65536 <> r.
Proof.
  intros Hs Hd Hrange Heq. subst r.
  pose proof (Z.div_mod s 65536 ltac:(lia)).
  pose proof (Z.div_mod (s + d) 65536 ltac:(lia)).
  rewrite Heq in *. nia.
Qed.

(** X4. A frame that validates no longer does once any single one of its
    bytes, checksum bytes included, is replaced by a different byte. *)
Theorem validate_checksum_detects_one_byte (b : list byte) (i : nat)
        (x y : byte) :
  2 <= Z.of_nat (List.length b) <= 65535 ->
  validate_checksum b (Z.of_nat (List.length b)) = Some true ->
  nth_error b i = Some x -> y <> x ->
  validate_checksum (poke b i y) (Z.of_nat (List.length b)) = Some false.
Proof.
  intros Hlen Hvalid Hx Hy.
  assert (Hi : (i < List.length b)%nat) by (apply nth_error_Some; congruence).
  assert (Hd : u8 y - u8 x <> 0) by (intros H; apply Hy, u8_inj; lia).
  pose proof (u8_range x). pose proof (u8_range y).
  destruct (List.length b) as [|[|n]] eqn:E; try lia.
  destruct (nth_error_defined b n ltac:(lia)) as [hi Hhi].
  destruct (nth_error_defined b (S n) ltac:(lia)) as [lo Hlo].
  pose proof (u8_range hi). pose proof (u8_range lo).
  rewrite (validate_checksum_within b n hi lo) in Hvalid by (auto; lia).
  assert (Hsum : byte_sum (firstn n b) mod 65536 = 256 * u8 hi + u8 lo)
    by (apply Z.eqb_eq; congruence).
  assert (Hget : forall j, nth_error (poke b i y) j
                           = if (i =? j)%nat then Some y else nth_error b j)
    by (intros j; apply nth_error_poke; lia).
  destruct (Nat.lt_ge_cases i n) as [Hin|Hin].
  - (* a payload byte *)
    rewrite (validate_checksum_within (poke b i y) n hi lo); try lia.
    + rewrite firstn_poke, (byte_sum_poke _ i x y).
      * f_equal. apply Z.eqb_neq.
        replace (byte_sum (firstn n b) - u8 x + u8 y)
          with (byte_sum (firstn n b) + (u8 y - u8 x)) by lia.
        apply mod_shift_differs; auto; lia.
      * rewrite nth_error_firstn.
        destruct (Nat.ltb_spec i n); [exact Hx|lia].
    + rewrite Hget. destruct (Nat.eqb_spec i n); [lia|exact Hhi].
    + rewrite Hget. destruct (Nat.eqb_spec i (S n)); [lia|exact Hlo].
  - (* one of the two checksum bytes *)
    assert (Hpay : firstn n (poke b i y) = firstn n b).
    { rewrite firstn_poke. apply poke_beyond. rewrite length_firstn. lia. }
    assert (Hcase : i = n \/ i = S n) by lia.
    destruct Hcase as [-> | ->].
    + rewrite (validate_checksum_within (poke b n y) n y lo); try lia.
      * rewrite Hpay. f_equal. apply Z.eqb_neq.
        assert (x = hi) by congruence. subst x. lia.
      * rewrite Hget. now rewrite Nat.eqb_refl.
      * rewrite Hget. destruct (Nat.eqb_spec n (S n)); [lia|exact Hlo].
    + rewrite (validate_checksum_within (poke b (S n) y) n hi y); try lia.
      * rewrite Hpay. f_equal. apply Z.eqb_neq.
        assert (x = lo) by congruence. subst x. lia.
      * rewrite Hget. destruct (Nat.eqb_spec (S n) n); [lia|exact Hhi].
      * rewrite Hget. now rewrite Nat.eqb_refl.
Qed.

Lemma validate_checksum_detects_one_byte_witness :
  validate_checksum (poke sample_frame 12 x3e) 79 = Some false.
Proof.
  apply (validate_checksum_detects_one_byte sample_frame 12 x00 x3e).
  - simpl. lia.
  - vm_compute. reflexivity.
  - reflexivity.
  - discriminate.
Defined.

(** ** More on [extract_float] and [extract_int] *)

Lemma reversed_copy_outside (data : list byte) (k : Z) :
  k < 0 \/ Z.of_nat (List.length data) < k + 4 ->
  reversed_copy data k = None.
Proof.
  intros H. unfold reversed_copy.
  destruct (Z_lt_le_dec k 0).
  - now rewrite (index_None data k) by lia.
  - rewrite (index_None data (k + 3)) by lia.
    now destruct (index data k), (index data (k + 1)), (index data (k + 2)).
Qed.

Lemma decode_be32_range (l : list byte) : 0 <= decode_be32 l < 4294967296.
Proof.
  destruct l as [|a [|b [|c [|d [|? ?]]]]]; cbn [decode_be32]; try lia.
  pose proof (u8_range a). pose proof (u8_range b).
  pose proof (u8_range c). pose proof (u8_range d). lia.
Qed.

Lemma word_at_range (host : byte_order) (data : list byte) (k : Z) :
  0 <= word_at host data k < 4294967296.
Proof. destruct host; apply decode_be32_range. Qed.

Lemma to_int_range (z : Z) : -2147483648 <= to_int z < 2147483648.
Proof.
  unfold to_int. pose proof (Z.mod_pos_bound z 4294967296 ltac:(lia)).
  destruct (Z.ltb_spec (z mod 4294967296) 2147483648); lia.
Qed.

Lemma extract_outside (host : byte_order) (data : list byte) (k : Z) :
  k < 0 \/ Z.of_nat (List.length data) < k + 4 ->
  extract_float host data k = None /\ extract_int host data k = None.
Proof.
  intros H. unfold extract_float, extract_int.
  now rewrite (reversed_copy_outside data k H).
Qed.

(** X5. [extract_float] and [extract_int] read outside the buffer exactly
    when the four bytes at [k] are not all inside it; otherwise the float
    is a 32-bit pattern and the integer lies in the range of [int]. *)
Theorem extract_defined_iff (host : byte_order) (data : list byte) (k : Z) :
  (extract_float host data k = None
   <-> k < 0 \/ Z.of_nat (List.length data) < k + 4) /\
  (extract_int host data k = None
   <-> k < 0 \/ Z.of_nat (List.length data) < k + 4) /\
  (forall f, extract_float host data k = Some f -> 0 <= f < 4294967296) /\
  (forall v, extract_int host data k = Some v ->
             -2147483648 <= v < 2147483648).
Proof.
  destruct (Z_lt_le_dec k 0) as [Hneg|Hpos];
    [|destruct (Z_lt_le_dec (Z.of_nat (List.length data)) (k + 4))
        as [Hout|Hin]].
  1,2: unfold extract_float, extract_int;
       rewrite (reversed_copy_outside data k) by lia; cbn [option_map];
       repeat split; intros; try discriminate; lia.
  destruct (extract_at host data k Hpos Hin) as [-> ->].
  split; [|split; [|split]].
  - split; [discriminate|lia].
  - split; [discriminate|lia].
  - intros f Hf. inversion Hf. apply word_at_range.
  - intros v Hv. inversion Hv. apply to_int_range.
Qed.

Lemma encode_decode_be32 (a b c d : byte) :
  encode_be32 (decode_be32 [a; b; c; d]) = [a; b; c; d].
Proof.
  unfold encode_be32, decode_be32.
  pose proof (u8_range a). pose proof (u8_range b).
  pose proof (u8_range c). pose proof (u8_range d).
  set (v := 16777216 * u8 a + 65536 * u8 b + 256 * u8 c + u8 d).
  assert (H24 : v / 16777216 = u8 a)
    by (symmetry; apply Z.div_unique with (r := v - 16777216 * u8 a);
        unfold v; lia).
  assert (H16 : v / 65536 = 256 * u8 a + u8 b)
    by (symmetry; apply Z.div_unique with (r := 256 * u8 c + u8 d);
        unfold v; lia).
  assert (H8 : v / 256 = 65536 * u8 a + 256 * u8 b + u8 c)
    by (symmetry; apply Z.div_unique with (r := u8 d); unfold v; lia).
  rewrite H24, H16, H8.
  repeat f_equal; apply u8_inj; rewrite u8_byte_of_Z.
  - apply Z.mod_small. lia.
  - symmetry. apply Z.mod_unique_pos with (q := u8 a); lia.
  - symmetry. apply Z.mod_unique_pos with (q := 256 * u8 a + u8 b); lia.
  - symmetry. unfold v.
    apply Z.mod_unique_pos with (q := 65536 * u8 a + 256 * u8 b + u8 c); lia.
Qed.

(** X6. On a big-endian host both functions read the four bytes in the
    opposite order: the pattern they give is the byte swap of the pattern
    read on a little-endian host. *)
Theorem extract_on_big_endian_swaps (data : list byte) (k w : Z) :
  extract_float LittleEndian data k = Some w ->
  extract_float BigEndian data k = Some (bswap32 w) /\
  extract_int BigEndian data k = Some (to_int (bswap32 w)) /\
  extract_int LittleEndian data k = Some (to_int w).
Proof.
  intros Hw.
  assert (Hk : 0 <= k /\ k + 4 <= Z.of_nat (List.length data)).
  { destruct (Z_lt_le_dec k 0);
      [|destruct (Z_lt_le_dec (Z.of_nat (List.length data)) (k + 4))];
      try lia; unfold extract_float in Hw;
      rewrite (reversed_copy_outside data k) in Hw by lia; discriminate. }
  destruct Hk as [Hk Hlen].
  destruct (extract_at LittleEndian data k Hk Hlen) as [HfL HiL].
  destruct (extract_at BigEndian data k Hk Hlen) as [HfB HiB].
  rewrite HfL in Hw. inversion Hw as [Hw']. subst w. rewrite HfB, HiB, HiL.
  assert (Hswap : word_at BigEndian data k
                  = bswap32 (word_at LittleEndian data k)).
  { unfold word_at, bswap32.
    destruct (reversed_copy_slice data k Hk Hlen) as [_ Hfour].
    destruct (slice data (Z.to_nat k) 4) as [|a [|b [|c [|d [|? ?]]]]];
      try discriminate.
    now rewrite encode_decode_be32. }
  rewrite Hswap. repeat split.
Qed.

Lemma extract_on_big_endian_swaps_witness :
  extract_float BigEndian [x3f; x80; x00; x00] 0 = Some 32831 /\
  bswap32 1065353216 = 32831.
Proof.
  destruct (extract_on_big_endian_swaps [x3f; x80; x00; x00] 0 1065353216)
    as (Hf & _); [reflexivity|].
  split; [exact Hf | reflexivity].
Defined.

(** ** More on the decoder *)

Lemma extract_floats_outside (host : byte_order) (data : list byte) (n : nat) :
  forall k, 0 <= k -> (0 < n)%nat ->
  Z.of_nat (List.length data) < k + 4 * Z.of_nat n ->
  extract_floats host data n k = None.
Proof.
  induction n as [|n IH]; intros k Hk Hn Hlen; [lia|].
  cbn [extract_floats].
  destruct (Z_lt_le_dec (Z.of_nat (List.length data)) (k + 4)) as [Hout|Hin].
  - destruct (extract_outside host data k) as [-> _]; [lia|reflexivity].
  - destruct (extract_at host data k Hk Hin) as [-> _].
    destruct n as [|n]; [lia|]. now rewrite IH by lia.
Qed.

(** what [decode] gives on a buffer of 77 bytes or more *)
Lemma decode_long (host : byte_order) (data : list byte) :
  (77 <= List.length data)%nat ->
  decode host data =
    Some {| accel := map (word_at host data) [1; 5; 9];
            ang_vel := map (word_at host data) [13; 17; 21];
            mag := map (word_at host data) [25; 29; 33];
            M := map (word_at host data) [37; 41; 45; 49; 53; 57; 61; 65; 69];
            T := double_div (double_of_int (to_int (word_at host data 73)))
                            TICKS_PER_SECOND |}.
Proof.
  intros Hlen. unfold decode.
  rewrite (extract_floats_at host data 3 1) by lia.
  rewrite (extract_floats_at host data 3 _) by lia.
  rewrite (extract_floats_at host data 3 _) by lia.
  rewrite (extract_floats_at host data 9 _) by lia.
  destruct (extract_at host data 73) as [_ Hint]; [lia | lia |].
  cbn [Z.of_nat Pos.of_succ_nat Pos.succ seq map]. simpl Z.add.
  rewrite Hint. reflexivity.
Qed.

Lemma decode_short (host : byte_order) (data : list byte) :
  (List.length data < 77)%nat -> decode host data = None.
Proof.
  intros Hlen. unfold decode.
  destruct (Z_lt_le_dec (Z.of_nat (List.length data)) 13);
    [now rewrite extract_floats_outside by lia|].
  rewrite (extract_floats_at host data 3 1) by lia.
  destruct (Z_lt_le_dec (Z.of_nat (List.length data)) 25);
    [now rewrite extract_floats_outside by lia|].
  rewrite (extract_floats_at host data 3 _) by lia.
  destruct (Z_lt_le_dec (Z.of_nat (List.length data)) 37);
    [now rewrite extract_floats_outside by lia|].
  rewrite (extract_floats_at host data 3 _) by lia.
  destruct (Z_lt_le_dec (Z.of_nat (List.length data)) 73);
    [now rewrite extract_floats_outside by lia|].
  rewrite (extract_floats_at host data 9 _) by lia.
  destruct (extract_outside host data (1 + 4 * Z.of_nat 3 + 4 * Z.of_nat 3
                                        + 4 * Z.of_nat 3 + 4 * Z.of_nat 9))
    as [_ ->]; [lia|reflexivity].
Qed.

Lemma slice_of_slice (data : list byte) (s m a n : nat) :
  (a + n <= m)%nat -> slice (slice data s m) a n = slice data (s + a) n.
Proof.
  intros H. unfold slice.
  rewrite skipn_firstn_comm, firstn_firstn, skipn_skipn.
  rewrite Nat.min_l by lia. f_equal. f_equal. lia.
Qed.

(** the fields are inside the bytes 1 to 76 *)
Lemma word_at_payload (host : byte_order) (data : list byte) (k : Z) :
  1 <= k <= 73 ->
  word_at host data k
  = word_at host (slice data 1 76) (k - 1).
Proof.
  intros Hk. unfold word_at.
  rewrite (slice_of_slice data 1 76 (Z.to_nat (k - 1)) 4) by lia.
  replace (1 + Z.to_nat (k - 1))%nat with (Z.to_nat k) by lia.
  reflexivity.
Qed.

(** X7. The decoder reads the bytes 1 to 76 of the buffer and nothing else:
    it fails exactly when the buffer has fewer than 77 bytes, and two
    buffers that agree on those bytes decode alike, whatever their byte 0
    (the frame-type marker) and their bytes from 77 on. *)
Theorem decode_reads_bytes_1_to_76 (host : byte_order) (d1 d2 : list byte) :
  (decode host d1 = None <-> (List.length d1 < 77)%nat) /\
  (slice d1 1 76 = slice d2 1 76 -> decode host d1 = decode host d2).
Proof.
  split.
  - split.
    + intros Hnone. destruct (Nat.lt_ge_cases (List.length d1) 77) as [|Hge];
        [assumption|]. rewrite (decode_long host d1 Hge) in Hnone.
      discriminate.
    + apply decode_short.
  - intros Heq.
    assert (Hlen : forall d, List.length (slice d 1 76)
                             = Nat.min 76 (List.length d - 1))
      by (intros d; unfold slice; now rewrite length_firstn, length_skipn).
    pose proof (Hlen d1) as H1. pose proof (Hlen d2) as H2.
    rewrite Heq in H1.
    destruct (Nat.lt_ge_cases (List.length d1) 77) as [Hlt|Hge].
    + rewrite !decode_short by lia. reflexivity.
    + rewrite !decode_long by lia.
      cbn [map].
      rewrite !(word_at_payload host d1), !(word_at_payload host d2) by lia.
      now rewrite Heq.
Qed.

Lemma decode_reads_bytes_1_to_76_witness :
  decode LittleEndian (xff :: tl sample_frame ++ [x00; x01])
  = decode LittleEndian sample_frame.
Proof.
  apply (proj2 (decode_reads_bytes_1_to_76 LittleEndian
                  (xff :: tl sample_frame ++ [x00; x01]) sample_frame)).
  reflexivity.
Defined.

(** *** A timer count with bit 31 set *)

Lemma binary_round_aux_opp (s : bool) (m e : Z) (l : location) :
  binary_round_aux 53 1024 (negb s) m e l
  = SFopp (binary_round_aux 53 1024 s m e l).
Proof.
  unfold binary_round_aux.
  destruct (shr_fexp 53 1024 m e l) as [mrs e'].
  destruct (shr_fexp 53 1024 _ e' loc_Exact) as [mrs' e''].
  destruct (shr_m mrs'); try reflexivity.
  now destruct (Z.leb e'' (1024 - 53)).
Qed.

Lemma double_div_opp (x y : double) :
  double_div (SFopp x) y = SFopp (double_div x y).
Proof.
  unfold double_div.
  destruct x as [sx|sx| |sx mx ex], y as [sy|sy| |sy my ey];
    cbn [SFdiv SFopp]; try reflexivity;
    try (now destruct sx, sy).
  destruct (SFdiv_core_binary 53 1024 (Z.pos mx) ex (Z.pos my) ey)
    as [[mz ez] lz].
  replace (xorb (negb sx) sy) with (negb (xorb sx sy)) by now destruct sx, sy.
  apply binary_round_aux_opp.
Qed.

Lemma double_of_int_opp (n : Z) :
  n <> 0 -> double_of_int (- n) = SFopp (double_of_int n).
Proof.
  intros Hn. unfold double_of_int, binary_normalize.
  destruct n as [|p|p]; [lia| |]; cbn [Z.opp]; unfold binary_round;
    destruct (shl_align p 0 _) as [mz ez];
    [change true with (negb false) | change false with (negb true) at 1];
    rewrite binary_round_aux_opp; [reflexivity|].
  now destruct (binary_round_aux 53 1024 true (Z.pos mz) ez loc_Exact) as [[|]|[|]| |[|] ? ?].
Qed.

(** the elapsed time decoded from a timer field with bit 31 set *)
Lemma decode_wrapped_timer (host : byte_order) (data : list byte) :
  (77 <= List.length data)%nat ->
  2147483648 <= word_at host data 73 ->
  exists f,
    decode host data = Some f /\
    0 < 4294967296 - word_at host data 73 <= 2147483648 /\
    T f = SFopp (double_div (double_of_int (4294967296 - word_at host data 73))
                            TICKS_PER_SECOND).
Proof.
  intros Hlen Htop. eexists. split; [apply (decode_long host data Hlen)|].
  pose proof (word_at_range host data 73) as Hw.
  split; [lia|]. cbn [T].
  assert (Hint : to_int (word_at host data 73)
                 = - (4294967296 - word_at host data 73)).
  { unfold to_int. rewrite Z.mod_small by lia.
    destruct (Z.ltb_spec (word_at host data 73) 2147483648); lia. }
  rewrite Hint, double_of_int_opp by lia. apply double_div_opp.
Qed.

(** ** [print_bytes] *)

Lemma hex_digit_code (d : Z) :
  0 <= d < 16 ->
  nat_of_ascii (hex_digit d)
  = if d <? 10 then (48 + Z.to_nat d)%nat else (87 + Z.to_nat d)%nat.
Proof.
  intros Hd. unfold hex_digit.
  destruct (d <? 10); apply nat_ascii_embedding; lia.
Qed.

Lemma hex_digit_inj (d1 d2 : Z) :
  0 <= d1 < 16 -> 0 <= d2 < 16 -> hex_digit d1 = hex_digit d2 -> d1 = d2.
Proof.
  intros H1 H2 H. apply (f_equal nat_of_ascii) in H.
  rewrite !hex_digit_code in H by assumption.
  destruct (Z.ltb_spec d1 10), (Z.ltb_spec d2 10); lia.
Qed.

Lemma hex_digit_not_space (d : Z) :
  0 <= d < 16 -> hex_digit d <> " "%char.
Proof.
  intros Hd H. apply (f_equal nat_of_ascii) in H.
  rewrite hex_digit_code in H by assumption.
  change (nat_of_ascii " ") with 32%nat in H.
  destruct (d <? 10); lia.
Qed.

Lemma printf_2x_inj (v1 v2 : Z) :
  0 <= v1 < 256 -> 0 <= v2 < 256 -> printf_2x v1 = printf_2x v2 -> v1 = v2.
Proof.
  intros H1 H2 H. unfold printf_2x in H. cbv zeta in H.
  injection H as Hhi Hlo.
  assert (B1 : 0 <= v1 / 16 < 16)
    by (split; [apply Z.div_pos|apply Z.div_lt_upper_bound]; lia).
  assert (B2 : 0 <= v2 / 16 < 16)
    by (split; [apply Z.div_pos|apply Z.div_lt_upper_bound]; lia).
  assert (L1 : 0 <= v1 mod 16 < 16) by (apply Z.mod_pos_bound; lia).
  assert (L2 : 0 <= v2 mod 16 < 16) by (apply Z.mod_pos_bound; lia).
  apply hex_digit_inj in Hlo; [|assumption..].
  assert (Hq : v1 / 16 = v2 / 16).
  { destruct (Z.eqb_spec (v1 / 16) 0) as [E1|E1],
             (Z.eqb_spec (v2 / 16) 0) as [E2|E2].
    - congruence.
    - symmetry in Hhi. now apply hex_digit_not_space in Hhi.
    - now apply hex_digit_not_space in Hhi.
    - now apply hex_digit_inj. }
  rewrite (Z.div_mod v1 16), (Z.div_mod v2 16) by lia. congruence.
Qed.

Lemma length_append (s1 s2 : string) :
  String.length (append s1 s2) = (String.length s1 + String.length s2)%nat.
Proof.
  induction s1 as [|c s1 IH]; [reflexivity|].
  cbn [append String.length]. now rewrite IH.
Qed.

Lemma hex_text_length (l : list byte) :
  String.length (hex_text l) = (3 * List.length l)%nat.
Proof.
  induction l as [|b l IH]; [reflexivity|].
  cbn [hex_text fold_right List.length]. fold (hex_text l).
  unfold printf_2x. cbn [append String.length]. lia.
Qed.

Lemma hex_text_inj (l1 l2 : list byte) :
  List.length l1 = List.length l2 -> hex_text l1 = hex_text l2 -> l1 = l2.
Proof.
  revert l2. induction l1 as [|b1 l1 IH]; intros [|b2 l2] Hlen H;
    try discriminate; [reflexivity|].
  cbn [hex_text fold_right] in H. fold (hex_text l1) (hex_text l2) in H.
  assert (Hb : printf_2x (u8 b1) = printf_2x (u8 b2) /\
               hex_text l1 = hex_text l2).
  { unfold printf_2x in *. cbn [append] in H. injection H as H1 H2 H3.
    split; [|exact H3]. now rewrite H1, H2. }
  destruct Hb as [Hb Ht].
  apply printf_2x_inj in Hb;
    [|pose proof (u8_range b1); lia|pose proof (u8_range b2); lia].
  apply u8_inj in Hb. subst b2. f_equal. apply IH; [|exact Ht].
  now injection Hlen.
Qed.

(** the loop from [i] on, when the [k] bytes left to print are inside
    the buffer *)
Lemma print_loop_text (data : list byte) (length : Z) :
  forall (k fuel : nat) (i : Z),
    0 <= i -> i + Z.of_nat k = length ->
    length <= Z.of_nat (List.length data) -> (k < fuel)%nat ->
    print_loop fuel data length i
    = Some (hex_text (firstn k (skipn (Z.to_nat i) data))).
Proof.
  induction k as [|k IH]; intros fuel i Hi Hk Hsize Hfuel;
    (destruct fuel as [|fuel]; [lia|]); cbn [print_loop].
  - destruct (Z.ltb_spec i length); [lia|]. reflexivity.
  - destruct (Z.ltb_spec i length); [|lia].
    destruct (index data i) as [b|] eqn:Hb.
    2:{ destruct (index_Some data i) as [b' Hb']; [lia|congruence]. }
    rewrite (IH fuel (i + 1)) by lia. cbn [option_map]. f_equal.
    unfold index in Hb. destruct (Z.ltb_spec i 0); [lia|].
    replace (Z.to_nat (i + 1)) with (S (Z.to_nat i)) by lia.
    revert Hb. generalize (Z.to_nat i) as n. clear.
    intros n. revert data. induction n as [|n IHn]; intros [|x data] Hb;
      try discriminate.
    + cbn in Hb. injection Hb as ->. reflexivity.
    + cbn [nth_error] in Hb. cbn [skipn]. now apply IHn.
Qed.

(** the loop reads outside the buffer when [length] exceeds its size *)
Lemma print_loop_outside (data : list byte) (length : Z) :
  forall (k fuel : nat) (i : Z),
    0 <= i -> i + Z.of_nat k = Z.of_nat (List.length data) ->
    Z.of_nat (List.length data) < length ->
    print_loop fuel data length i = None.
Proof.
  induction k as [|k IH]; intros fuel i Hi Hk Hsize;
    (destruct fuel as [|fuel]; [reflexivity|]); cbn [print_loop];
    (destruct (Z.ltb_spec i length); [|lia]).
  - rewrite index_None; [reflexivity|lia].
  - destruct (index data i) as [b|]; [|reflexivity].
    rewrite (IH fuel (i + 1)) by lia. reflexivity.
Qed.

Lemma print_bytes_text (data : list byte) (length : Z) :
  0 <= length <= 65535 -> length <= Z.of_nat (List.length data) ->
  print_bytes data length
  = Some (append (hex_text (firstn (Z.to_nat length) data)) newline).
Proof.
  intros Hlen Hsize. unfold print_bytes.
  assert (Hfuel : (Z.to_nat length < loop_fuel)%nat)
    by (unfold loop_fuel; lia).
  revert Hfuel. generalize loop_fuel. intros fuel Hfuel.
  now rewrite (print_loop_text data length (Z.to_nat length) fuel 0) by lia.
Qed.

Lemma print_bytes_outside (data : list byte) (length : Z) :
  Z.of_nat (List.length data) < length -> print_bytes data length = None.
Proof.
  intros H. unfold print_bytes. generalize loop_fuel. intros fuel.
  now rewrite (print_loop_outside data length (List.length data) fuel 0)
    by lia.
Qed.

Lemma append_newline_inj (s1 s2 : string) :
  append s1 newline = append s2 newline -> s1 = s2.
Proof.
  revert s2. induction s1 as [|c1 s1 IH]; intros [|c2 s2] H; cbn in H.
  - reflexivity.
  - injection H as _ H. destruct s2; discriminate.
  - injection H as _ H. destruct s1; discriminate.
  - injection H as -> H. f_equal. now apply IH.
Qed.

(** X9. [print_bytes] is defined exactly when [length] is at most the size
    of the buffer; it then prints three characters for each byte and an end
    of line. *)
Theorem print_bytes_defined_iff (data : list byte) (length : Z) :
  0 <= length <= 65535 ->
  (length <= Z.of_nat (List.length data) <->
   exists text, print_bytes data length = Some text /\
                Z.of_nat (String.length text) = 3 * length + 1).
Proof.
  intros Hlen. split.
  - intros Hsize. eexists. split; [now apply print_bytes_text|].
    rewrite length_append, hex_text_length, length_firstn.
    cbn [String.length newline]. lia.
  - intros (text & Hrun & _).
    destruct (Z.le_gt_cases length (Z.of_nat (List.length data)))
      as [H|H]; [exact H|].
    rewrite (print_bytes_outside data length H) in Hrun. discriminate.
Qed.

(** X10. The text of [print_bytes] tells the bytes: two buffers give the
    same text only if their first [length] bytes are the same. *)
Theorem print_bytes_unambiguous (d1 d2 : list byte) (length : Z)
        (text : string) :
  0 <= length <= 65535 ->
  print_bytes d1 length = Some text -> print_bytes d2 length = Some text ->
  firstn (Z.to_nat length) d1 = firstn (Z.to_nat length) d2.
Proof.
  intros Hlen H1 H2.
  assert (S1 : length <= Z.of_nat (List.length d1)).
  { destruct (Z.le_gt_cases length (Z.of_nat (List.length d1)))
      as [H|H]; [exact H|].
    rewrite (print_bytes_outside d1 length H) in H1. discriminate. }
  assert (S2 : length <= Z.of_nat (List.length d2)).
  { destruct (Z.le_gt_cases length (Z.of_nat (List.length d2)))
      as [H|H]; [exact H|].
    rewrite (print_bytes_outside d2 length H) in H2. discriminate. }
  rewrite (print_bytes_text d1 length Hlen S1) in H1.
  rewrite (print_bytes_text d2 length Hlen S2) in H2.
  rewrite <- H2 in H1. injection H1 as H.
  apply append_newline_inj in H. apply hex_text_inj; [|exact H].
  rewrite !length_firstn. lia.
Qed.

Lemma print_bytes_defined_iff_witness :
  exists text, print_bytes reply_active 4 = Some text /\
               Z.of_nat (String.length text) = 3 * 4 + 1.
Proof.
  apply (print_bytes_defined_iff reply_active 4); [lia|].
  vm_compute. discriminate.
Defined.

Lemma print_bytes_unambiguous_witness :
  firstn (Z.to_nat 4) reply_active
  = firstn (Z.to_nat 4) (reply_active ++ reply_idle).
Proof.
  apply (print_bytes_unambiguous reply_active (reply_active ++ reply_idle) 4
           (append "d4 2d  1  1 " newline)); [lia| |];
    vm_compute; reflexivity.
Defined.

(** ** Runs of [main] *)

Section Runs.
Context {ros_time : RosTime} {eigen : EigenGeometry}.

(** ** More on the streaming loop *)

Lemma fill_same_settings (l1 l2 : locals) (f : fields) :
  same_settings l1 l2 ->
  fill_imu l1 f = fill_imu l2 f /\ fill_mag l1 f = fill_mag l2 f.
Proof.
  intros (Ht & Hd & Hf & Hc). unfold fill_imu, fill_mag.
  now rewrite Ht, Hd, Hf, Hc.
Qed.

Lemma poke_double_twice (a : list double) (v : double) :
  poke_double (poke_double a 0 v) 0 v = poke_double a 0 v.
Proof. now destruct a. Qed.

Lemma same_settings_trans (l1 l2 l3 : locals) :
  same_settings l1 l2 -> same_settings l2 l3 -> same_settings l1 l3.
Proof.
  intros (? & ? & ? & ?) (? & ? & ? & ?). repeat split; congruence.
Qed.

(** one iteration, whatever the frame: the 79 bytes are consumed and the
    samples of the frame, if any, are added to the trace *)
Lemma iteration_frame (host : byte_order) (l : locals) (w : world)
      (frame rest : list byte) :
  port_open w = true -> rx w = frame ++ rest ->
  List.length frame = 79%nat ->
  exists l' w',
    iteration host l w = (Done l', w') /\
    same_settings l' l /\
    port_open w' = true /\ rx w' = rest /\
    samples (trace w') = samples (trace w) ++ frame_samples host l frame.
Proof.
  intros Hopen Hrx Hlen.
  assert (Hcall : call_ok (frame, 79)).
  { unfold call_ok. cbn [fst snd]. rewrite Hlen. simpl. lia. }
  destruct (validate_checksum_defined frame 79 Hcall) as [ok Hok].
  unfold frame_samples, frame_valid. change DATA_LENGTH with 79.
  rewrite Hok. destruct ok.
  - pose proof (decode_frame host frame Hlen) as Hdec.
    pose proof (iteration_valid host l w frame rest _ Hopen Hrx Hlen Hok Hdec)
      as Hrun.
    cbv zeta in Hrun. rewrite Hdec.
    do 2 eexists. split; [exact Hrun|].
    assert (Hsame : same_settings (with_data frame l) l)
      by (repeat split).
    destruct (fill_same_settings _ _
                (Build_fields (map (word_at host frame) [1; 5; 9])
                   (map (word_at host frame) [13; 17; 21])
                   (map (word_at host frame) [25; 29; 33])
                   (map (word_at host frame)
                        [37; 41; 45; 49; 53; 57; 61; 65; 69])
                   (double_div
                      (double_of_int (to_int (word_at host frame 73)))
                      TICKS_PER_SECOND)) Hsame) as [Himu Hmag].
    rewrite <- Himu, <- Hmag.
    split; [|split; [exact Hopen|split; [reflexivity|]]].
    + repeat split. cbn [with_msgs imu_msg fill_imu orientation_covariance
                         with_data].
      apply poke_double_twice.
    + cbn [emit trace with_call with_rx]. unfold samples.
      rewrite !filter_app. cbn [filter is_sample]. now rewrite <- app_assoc.
  - pose proof (iteration_invalid host l w frame rest Hopen Hrx Hlen Hok)
      as Hrun.
    do 2 eexists. split; [exact Hrun|].
    split; [repeat split|]. split; [exact Hopen|]. split; [reflexivity|].
    cbn [emit trace with_call with_rx]. unfold samples.
    rewrite filter_app. cbn [filter is_sample]. reflexivity.
Qed.

(** X11. While [n.ok()] holds, the loop takes the stream 79 bytes at a time
    and publishes, in stream order, one Imu and one MagneticField sample
    for each frame that passes validation and nothing for the others; each
    sample is computed from its own frame and from [t0], [delay] and
    [frame_id] alone, so earlier frames leave no mark on it. *)
Theorem stream_loop_publishes_valid_frames (host : byte_order)
        (frames : list (list byte)) :
  forall (l : locals) (w : world) (rest : list byte),
    port_open w = true -> rx w = List.concat frames ++ rest ->
    Forall (fun frame => List.length frame = 79%nat) frames ->
    exists l' w',
      stream_loop host (repeat true (List.length frames)) l w = (Done l', w') /\
      rx w' = rest /\
      samples (trace w')
      = samples (trace w) ++ flat_map (frame_samples host l) frames.
Proof.
  induction frames as [|frame frames IH]; intros l w rest Hopen Hrx Hlen.
  - exists l, w. cbn. rewrite app_nil_r. auto.
  - inversion Hlen as [|? ? Hframe Hframes]; subst.
    cbn [List.concat] in Hrx. rewrite <- app_assoc in Hrx.
    destruct (iteration_frame host l w frame (List.concat frames ++ rest)
                Hopen Hrx Hframe)
      as (l1 & w1 & Hrun & Hsame & Hopen1 & Hrx1 & Hsamples1).
    destruct (IH l1 w1 rest Hopen1 Hrx1 Hframes)
      as (l' & w' & Hloop & Hrest & Hsamples).
    exists l', w'. split; [|split; [exact Hrest|]].
    + cbn [List.length repeat stream_loop].
      rewrite (bind_done _ _ _ _ _ Hrun). exact Hloop.
    + rewrite Hsamples, Hsamples1, <- app_assoc. cbn [flat_map].
      do 2 f_equal. apply flat_map_ext. intros fr.
      unfold frame_samples. destruct (frame_valid fr); [|reflexivity].
      destruct (decode host fr) as [f|]; [|reflexivity].
      now destruct (fill_same_settings l1 l f Hsame) as [-> ->].
Qed.

(** ** A timer count with bit 31 set *)

(** X8. The timer field is read as a signed [int]: a frame that passes
    validation and whose timer field has bit 31 set is published as any
    other, with the stamp [t0 + Duration(T) - Duration(delay)] of a
    negative [T], the exact negation of the time for the count
    [2^32 - timer]. *)
Theorem timer_with_top_bit_is_negative (host : byte_order) (l : locals)
        (w : world) (frame rest : list byte) :
  port_open w = true -> rx w = frame ++ rest ->
  List.length frame = 79%nat ->
  validate_checksum frame 79 = Some true ->
  2147483648 <= word_at host frame 73 ->
  let count := 4294967296 - word_at host frame 73 in
  let elapsed := SFopp (double_div (double_of_int count) TICKS_PER_SECOND) in
  0 < count <= 2147483648 /\
  exists imu mag l' w',
    iteration host l w = (Done l', w') /\
    trace w' = trace w ++ [PublishedImu imu; PublishedMag mag] /\
    stamp (imu_header imu) = stamp_of (l_t0 l) elapsed (l_delay l) /\
    stamp (mag_header mag) = stamp_of (l_t0 l) elapsed (l_delay l).
Proof.
  intros Hopen Hrx Hlen Hsum Htop count elapsed.
  destruct (decode_wrapped_timer host frame) as (f & Hdec & Hcount & HT);
    [lia|exact Htop|].
  split; [exact Hcount|].
  pose proof (iteration_valid host l w frame rest f Hopen Hrx Hlen Hsum Hdec)
    as Hrun.
  cbv zeta in Hrun. do 4 eexists. split; [exact Hrun|].
  split.
  { cbn [emit trace with_call with_rx]. now rewrite <- app_assoc. }
  unfold fill_imu, fill_mag. cbn [imu_header mag_header stamp].
  rewrite HT. split; reflexivity.
Qed.

(** ** A logic for the statements of [main] *)

Lemma hoare_bind {A B : Type} (m : stmt A) (k : A -> stmt B)
      (Pre : world -> Prop) (Mid : A -> world -> Prop)
      (Post : B -> world -> Prop) (Exit : Z -> world -> Prop)
      (Stop : halt -> world -> Prop) :
  hoare Pre m Mid Exit Stop ->
  (forall a, hoare (Mid a) (k a) Post Exit Stop) ->
  hoare Pre (bind m k) Post Exit Stop.
Proof.
  intros Hm Hk w Hw. specialize (Hm w Hw). unfold bind.
  destruct (m w) as [[a|c| | |] w1]; try assumption.
  exact (Hk a w1 Hm).
Qed.

Lemma hoare_conseq {A : Type} (m : stmt A)
      (Pre Pre' : world -> Prop) (Post Post' : A -> world -> Prop)
      (Exit Exit' : Z -> world -> Prop) (Stop Stop' : halt -> world -> Prop) :
  hoare Pre' m Post' Exit' Stop' ->
  (forall w, Pre w -> Pre' w) ->
  (forall a w, Post' a w -> Post a w) ->
  (forall c w, Exit' c w -> Exit c w) ->
  (forall h w, Stop' h w -> Stop h w) ->
  hoare Pre m Post Exit Stop.
Proof.
  intros Hm HPre HPost HExit HStop w Hw. specialize (Hm w (HPre w Hw)).
  destruct (m w) as [[a|c| | |] w1]; auto.
Qed.

(** only the precondition is strengthened *)
Lemma hoare_pre {A : Type} (m : stmt A)
      (Pre Pre' : world -> Prop) (Post : A -> world -> Prop)
      (Exit : Z -> world -> Prop) (Stop : halt -> world -> Prop) :
  hoare Pre' m Post Exit Stop ->
  (forall w, Pre w -> Pre' w) ->
  hoare Pre m Post Exit Stop.
Proof. intros Hm HPre. eapply hoare_conseq; eauto. Qed.

Lemma hoare_ret {A : Type} (a : A) (Post : A -> world -> Prop)
      (Exit : Z -> world -> Prop) (Stop : halt -> world -> Prop) :
  hoare (Post a) (ret a) Post Exit Stop.
Proof. intros w Hw. exact Hw. Qed.

Lemma hoare_return {A : Type} (c : Z) (Post : A -> world -> Prop)
      (Exit : Z -> world -> Prop) (Stop : halt -> world -> Prop) :
  hoare (Exit c) (return_ c) Post Exit Stop.
Proof. intros w Hw. exact Hw. Qed.

Lemma hoare_when (b : bool) (m : stmt unit) (Pre : world -> Prop)
      (Post : unit -> world -> Prop) (Exit : Z -> world -> Prop)
      (Stop : halt -> world -> Prop) :
  (b = true -> hoare Pre m Post Exit Stop) ->
  (b = false -> forall w, Pre w -> Post tt w) ->
  hoare Pre (when b m) Post Exit Stop.
Proof.
  destruct b; cbn [when]; intros Hm Hskip; [now apply Hm|].
  intros w Hw. now apply Hskip.
Qed.

(** nothing is to be shown of a statement that is not reached *)
Lemma hoare_false {A : Type} (m : stmt A) (Post : A -> world -> Prop)
      (Exit : Z -> world -> Prop) (Stop : halt -> world -> Prop) :
  hoare (fun _ => False) m Post Exit Stop.
Proof. intros w []. Qed.

(** *** The primitive statements, by their weakest preconditions *)

Section Primitives.
Context (Post : unit -> world -> Prop)
        (Exit : Z -> world -> Prop) (Stop : halt -> world -> Prop).

Lemma hoare_ROS_LOG (lv : level) (text : string) :
  hoare (fun w => Post tt (emit (Logged lv text) w)) (ROS_LOG lv text)
        Post Exit Stop.
Proof. intros w Hw. exact Hw. Qed.

Lemma hoare_sleep (d : double) :
  hoare (fun w => Post tt (emit (Slept d) w)) (sleep d) Post Exit Stop.
Proof. intros w Hw. exact Hw. Qed.

Lemma hoare_advertise (topic : string) (q : Z) :
  hoare (fun w => Post tt (emit (Advertised topic q) w)) (advertise topic q)
        Post Exit Stop.
Proof. intros w Hw. exact Hw. Qed.

Lemma hoare_publish_imu (msg : Imu) :
  hoare (fun w => Post tt (emit (PublishedImu msg) w)) (publish_imu msg)
        Post Exit Stop.
Proof. intros w Hw. exact Hw. Qed.

Lemma hoare_publish_mag (msg : MagneticField) :
  hoare (fun w => Post tt (emit (PublishedMag msg) w)) (publish_mag msg)
        Post Exit Stop.
Proof. intros w Hw. exact Hw. Qed.

Lemma hoare_serial_close :
  hoare (fun w => Post tt (emit Closed (with_port (open_results w) false w)))
        serial_close Post Exit Stop.
Proof. intros w Hw. exact Hw. Qed.

Lemma hoare_set_mode3 (b : byte) :
  hoare (fun w => Post tt (with_mode (poke (mode w) 3 b) w))
        (set_mode3 b) Post Exit Stop.
Proof. intros w Hw. exact Hw. Qed.

Lemma hoare_set_option (o : port_option) :
  hoare (fun w => if port_open w then Post tt (emit (OptionSet o) w)
                  else Stop Throws w)
        (set_option o) Post Exit Stop.
Proof. intros w Hw. unfold set_option. now destruct (port_open w). Qed.

Lemma hoare_write (bytes : list byte) :
  hoare (fun w => if port_open w then Post tt (emit (Written bytes) w)
                  else Stop Throws w)
        (write bytes) Post Exit Stop.
Proof. intros w Hw. unfold write. now destruct (port_open w). Qed.

End Primitives.

Lemma hoare_serial_open (port : string) (Post : bool -> world -> Prop)
      (Exit : Z -> world -> Prop) (Stop : halt -> world -> Prop) :
  hoare (fun w =>
           if port_open w then Post false (emit (OpenFailed port) w)
           else match open_results w with
                | true :: rest =>
                    Post true (emit (Opened port) (with_port rest true w))
                | results =>
                    Post false (emit (OpenFailed port)
                                     (with_port (tl results) false w))
                end)
        (serial_open port) Post Exit Stop.
Proof.
  intros w Hw. unfold serial_open.
  destruct (port_open w); [exact Hw|].
  now destruct (open_results w) as [|[|] rest].
Qed.

Lemma hoare_is_open (Post : bool -> world -> Prop)
      (Exit : Z -> world -> Prop) (Stop : halt -> world -> Prop) :
  hoare (fun w => Post (port_open w) w) is_open Post Exit Stop.
Proof. intros w Hw. exact Hw. Qed.

Lemma hoare_get_mode (Post : list byte -> world -> Prop)
      (Exit : Z -> world -> Prop) (Stop : halt -> world -> Prop) :
  hoare (fun w => Post (mode w) w) get_mode Post Exit Stop.
Proof. intros w Hw. exact Hw. Qed.

Lemma hoare_get_reply (Post : list byte -> world -> Prop)
      (Exit : Z -> world -> Prop) (Stop : halt -> world -> Prop) :
  hoare (fun w => Post (reply w) w) get_reply Post Exit Stop.
Proof. intros w Hw. exact Hw. Qed.

Lemma hoare_read (n : nat) (Post : list byte -> world -> Prop)
      (Exit : Z -> world -> Prop) (Stop : halt -> world -> Prop) :
  hoare (fun w =>
           if port_open w then
             ((List.length (rx w) < n)%nat -> Stop Blocks w) /\
             (forall bytes rest, rx w = bytes ++ rest ->
                                 List.length bytes = n ->
                                 Post bytes (with_rx rest w))
           else Stop Throws w)
        (read n) Post Exit Stop.
Proof.
  intros w Hw. unfold read.
  destruct (port_open w); [|exact Hw]. destruct Hw as [Hstop Hpost].
  destruct (Nat.leb_spec n (List.length (rx w))); [|now apply Hstop].
  apply Hpost.
  - symmetry. apply firstn_skipn.
  - rewrite length_firstn. lia.
Qed.

Lemma hoare_read_reply (Post : unit -> world -> Prop)
      (Exit : Z -> world -> Prop) (Stop : halt -> world -> Prop) :
  hoare (fun w =>
           if port_open w then
             ((List.length (rx w) < Z.to_nat REPLY_LENGTH)%nat ->
              Stop Blocks w) /\
             (forall bytes rest,
                 rx w = bytes ++ rest ->
                 List.length bytes = Z.to_nat REPLY_LENGTH ->
                 Post tt (with_reply bytes (with_rx rest w)))
           else Stop Throws w)
        read_reply Post Exit Stop.
Proof.
  unfold read_reply.
  eapply hoare_bind
    with (Mid := fun bytes w => Post tt (with_reply bytes w)).
  - eapply hoare_pre; [apply hoare_read|].
    intros w Hw. cbv beta. destruct (port_open w); [|exact Hw].
    destruct Hw as [Hstop Hpost]. split; [exact Hstop|].
    intros bytes rest Hrx Hlen. now apply Hpost.
  - intros bytes w Hw. exact Hw.
Qed.

Lemma hoare_call_validate_checksum (data : list byte) (length : Z)
      (Post : bool -> world -> Prop) (Exit : Z -> world -> Prop)
      (Stop : halt -> world -> Prop) :
  hoare (fun w => Stop Faults (with_call (data, length) w) /\
                  forall b, Post b (with_call (data, length) w))
        (call_validate_checksum data length) Post Exit Stop.
Proof.
  intros w [Hstop Hpost]. unfold call_validate_checksum.
  destruct (validate_checksum data length); [apply Hpost|exact Hstop].
Qed.

Lemma hoare_load (a : list byte) (i : Z)
      (Post : byte -> world -> Prop) (Exit : Z -> world -> Prop)
      (Stop : halt -> world -> Prop) :
  hoare (fun w => Stop Faults w /\ forall b, Post b w) (load a i) Post Exit Stop.
Proof.
  intros w [Hstop Hpost]. unfold load.
  destruct (index a i); [apply Hpost|exact Hstop].
Qed.

(** applies the rule of a primitive statement *)
Ltac rule_of_statement :=
  lazymatch goal with
  | |- hoare _ (ROS_LOG _ _) _ _ _ => apply hoare_ROS_LOG
  | |- hoare _ (sleep _) _ _ _ => apply hoare_sleep
  | |- hoare _ (advertise _ _) _ _ _ => apply hoare_advertise
  | |- hoare _ (publish_imu _) _ _ _ => apply hoare_publish_imu
  | |- hoare _ (publish_mag _) _ _ _ => apply hoare_publish_mag
  | |- hoare _ serial_close _ _ _ => apply hoare_serial_close
  | |- hoare _ (set_mode3 _) _ _ _ => apply hoare_set_mode3
  | |- hoare _ (set_option _) _ _ _ => apply hoare_set_option
  | |- hoare _ (write _) _ _ _ => apply hoare_write
  | |- hoare _ (serial_open _) _ _ _ => apply hoare_serial_open
  | |- hoare _ is_open _ _ _ => apply hoare_is_open
  | |- hoare _ get_mode _ _ _ => apply hoare_get_mode
  | |- hoare _ get_reply _ _ _ => apply hoare_get_reply
  | |- hoare _ read_reply _ _ _ => apply hoare_read_reply
  | |- hoare _ (read _) _ _ _ => apply hoare_read
  | |- hoare _ (call_validate_checksum _ _) _ _ _ =>
      apply hoare_call_validate_checksum
  | |- hoare _ (load _ _) _ _ _ => apply hoare_load
  | |- hoare _ (ret _) _ _ _ => apply hoare_ret
  | |- hoare _ (return_ _) _ _ _ => apply hoare_return
  end.

Ltac by_rule := eapply hoare_pre; [rule_of_statement|].

(** ** How [main] ends *)

(** facts on the port, the input and the samples of a world built from
    another *)
Ltac settle :=
  intros; cbv beta in *;
  unfold ends, starting, idle, running, samples, waits in *;
  change (Z.to_nat DATA_LENGTH) with 79%nat in *;
  change (Z.to_nat REPLY_LENGTH) with 4%nat in *;
  repeat match goal with
         | H : _ /\ _ |- _ => destruct H
         end;
  repeat match goal with
         | H : port_open _ = _ |- _ => rewrite ?H
         end;
  cbv iota;
  repeat split; intros;
  cbn [port_open trace open_results rx emit with_port with_rx with_reply
       with_call with_mode] in *;
  rewrite ?filter_app; cbn [filter is_sample];
  repeat match goal with
         | H : filter is_sample _ = [] |- _ => rewrite H
         end;
  try match goal with
      | |- if ?b then _ else _ => destruct b
      end;
  auto; try congruence; try lia.

(** a sequence of statements that all keep [Inv]; [fin tt] proves the facts
    on the worlds *)
Ltac keep_on_by fin Inv :=
  cbv zeta;
  lazymatch goal with
  | |- hoare _ (bind _ _) _ _ _ =>
      first
        [ solve [eauto with hoare_db]
        | eapply hoare_bind with (Mid := fun _ => Inv);
          [ keep_on_by fin Inv | intros ?; keep_on_by fin Inv ] ]
  | |- hoare _ (when _ _) _ _ _ =>
      apply hoare_when;
      [ intros _; keep_on_by fin Inv | intros _ ? ?; solve [fin tt] ]
  | |- _ =>
      first [ solve [eauto with hoare_db]
            | by_rule; solve [fin tt] ]
  end.

Ltac keep_on Inv := keep_on_by ltac:(fun _ => settle) Inv.

Create HintDb hoare_db.

Lemma close_if_open_idles (Exit : Z -> world -> Prop) (Stop : halt -> world -> Prop) :
  hoare starting close_if_open (fun _ => idle) Exit Stop.
Proof.
  unfold close_if_open.
  eapply hoare_bind with (Mid := fun (o : bool) w => starting w /\ o = true).
  - by_rule. settle.
  - intros o. apply hoare_when.
    + intros _. by_rule. settle.
    + intros -> w [_ Ho]. discriminate.
Qed.

(** the three statements of every failure: log, close, return -1 *)
Lemma failure_ends (text : string) (Post : unit -> world -> Prop)
      (Stop : halt -> world -> Prop) :
  hoare starting
        (bind (ROS_LOG ERROR text)
              (fun _ => bind close_if_open (fun _ => return_ (-1))))
        Post ends Stop.
Proof.
  eapply hoare_bind with (Mid := fun _ => starting).
  - by_rule. settle.
  - intros _. eapply hoare_bind with (Mid := fun _ => idle).
    + apply close_if_open_idles.
    + intros _. by_rule. settle.
Qed.

#[local] Hint Resolve failure_ends : hoare_db.

Lemma open_or_return_starts (port : string) (Stop : halt -> world -> Prop) :
  hoare idle (open_or_return port) (fun _ => starting) ends Stop.
Proof.
  unfold open_or_return.
  eapply hoare_bind
    with (Mid := fun (opened : bool) w =>
                   if opened then starting w else idle w).
  { by_rule. intros w [Hport Hnone]. rewrite Hport.
    destruct (open_results w) as [|[|] rest]; settle. }
  intros opened.
  eapply hoare_bind with (Mid := fun _ => starting).
  { apply hoare_when.
    - intros Hopened. destruct opened; [discriminate|].
      eapply hoare_bind with (Mid := fun _ => idle).
      + by_rule. settle.
      + intros _. by_rule. settle.
    - intros Hopened w Hw. destruct opened; [exact Hw|discriminate]. }
  intros _.
  eapply hoare_bind with (Mid := fun (o : bool) w => starting w /\ o = true).
  { by_rule. settle. }
  intros o. apply hoare_when.
  - intros Ho. intros w [_ ->]. discriminate.
  - intros _ w [Hw _]. exact Hw.
Qed.

Lemma set_options_starting (baud : Z) :
  hoare starting (set_options baud) (fun _ => starting) ends waits.
Proof. unfold set_options. keep_on starting. Qed.

Lemma mode_exchange_starting :
  hoare starting mode_exchange (fun _ => starting) ends waits.
Proof. unfold mode_exchange. keep_on starting. Qed.

#[local] Hint Resolve open_or_return_starts set_options_starting
  mode_exchange_starting : hoare_db.

Lemma check_mode_starting (port : string) (baud : Z) :
  hoare starting (check_mode port baud) (fun _ => starting) ends waits.
Proof.
  unfold check_mode.
  eapply hoare_bind with (Mid := fun _ => starting);
    [apply mode_exchange_starting|].
  intros ok.
  eapply hoare_bind
    with (Mid := fun (flag : bool) w => if flag then idle w else starting w).
  { destruct ok; cbn [negb].
    - by_rule. settle.
    - eapply hoare_bind with (Mid := fun _ => starting); [by_rule; settle|].
      intros _.
      eapply hoare_bind with (Mid := fun _ => idle);
        [apply close_if_open_idles|].
      intros _. by_rule. settle. }
  intros flag. apply hoare_when.
  - intros ->.
    eapply hoare_bind with (Mid := fun _ => idle); [by_rule; settle|].
    intros _.
    eapply hoare_bind with (Mid := fun _ => idle); [by_rule; settle|].
    intros _. keep_on starting.
  - intros -> w Hw. exact Hw.
Qed.

#[local] Hint Resolve check_mode_starting : hoare_db.

Lemma handshake_starting (port : string) (baud : Z) (cfg : config) :
  hoare starting (handshake port baud cfg) (fun _ => starting) ends waits.
Proof. unfold handshake. keep_on starting. Qed.

(** after the handshake [main] can only return 0, with the port closed *)
Lemma iteration_goes_on (host : byte_order) (l : locals) :
  hoare running (iteration host l) (fun _ => running) ends waits.
Proof.
  unfold iteration.
  eapply hoare_bind with (Mid := fun _ => running); [by_rule; settle|].
  intros bytes. cbv zeta.
  eapply hoare_bind with (Mid := fun _ => running); [by_rule; settle|].
  intros ok. destruct ok; cbn [negb].
  - destruct (decode host _) as [f|]; [|intros w _; exact I].
    keep_on running.
  - keep_on running.
Qed.

Lemma stream_loop_goes_on (host : byte_order) (oks : list bool) :
  forall l, hoare running (stream_loop host oks l) (fun _ => running)
                  ends waits.
Proof.
  induction oks as [|[|] oks IH]; intros l; cbn [stream_loop].
  - by_rule. settle.
  - eapply hoare_bind with (Mid := fun _ => running);
      [apply iteration_goes_on|]. intros l'. apply IH.
  - by_rule. settle.
Qed.

Lemma start_streaming_runs (frame_id : string) (delay : double) (t0 : Time) :
  hoare starting (start_streaming frame_id delay t0) (fun _ => running)
        ends waits.
Proof.
  unfold start_streaming.
  eapply hoare_pre with (Pre' := running); [keep_on running|].
  intros w Hw. apply Hw.
Qed.

#[local] Hint Resolve handshake_starting iteration_goes_on
  stream_loop_goes_on : hoare_db.

(** [main] never completes without a [return] *)
Lemma main_ends (host : byte_order) (cfg : config) :
  hoare idle (main host cfg) (fun _ _ => False) ends waits.
Proof.
  unfold main. destruct (param_port cfg) as [port|].
  2:{ eapply hoare_bind with (Mid := fun _ => idle); [by_rule; settle|].
      intros _. by_rule. settle. }
  eapply hoare_bind with (Mid := fun _ => starting);
    [apply open_or_return_starts|]. intros _. cbv zeta.
  eapply hoare_bind with (Mid := fun _ => starting);
    [apply set_options_starting|]. intros _.
  eapply hoare_bind with (Mid := fun _ => starting);
    [apply handshake_starting|]. intros t0.
  eapply hoare_bind with (Mid := fun _ => running);
    [apply start_streaming_runs|]. intros l.
  eapply hoare_bind with (Mid := fun _ => running);
    [apply stream_loop_goes_on|]. intros _.
  eapply hoare_bind with (Mid := fun _ => running); [by_rule; settle|].
  intros _.
  eapply hoare_bind with (Mid := fun _ => running); [by_rule; settle|].
  intros _.
  eapply hoare_bind with (Mid := fun _ => running); [by_rule; settle|].
  intros _.
  eapply hoare_bind with (Mid := fun _ w => port_open w = false);
    [by_rule; settle|].
  intros _. by_rule. settle.
Qed.

Lemma boot_idle (rx : list byte) (opens : list bool) : idle (boot rx opens).
Proof. split; reflexivity. Qed.


(** X13. When [main] returns -1, no sample was published: a start-up that
    fails emits nothing. *)
Theorem failure_exit_means_no_sample (host : byte_order) (cfg : config)
        (rx0 : list byte) (opens : list bool) :
  fst (main host cfg (boot rx0 opens)) = Returned (-1) ->
  samples (trace (snd (main host cfg (boot rx0 opens)))) = [].
Proof.
  intros Hret.
  pose proof (main_ends host cfg (boot rx0 opens) (boot_idle rx0 opens)) as H.
  destruct (main host cfg (boot rx0 opens)) as [o w'].
  cbn [fst snd] in *. subst o. destruct H as [_ [H | [_ H]]]; [lia|exact H].
Qed.

(** X14. Whenever [main] returns, the serial port is closed. *)
Theorem port_closed_on_return (host : byte_order) (cfg : config)
        (rx0 : list byte) (opens : list bool) (c : Z) :
  fst (main host cfg (boot rx0 opens)) = Returned c ->
  port_open (snd (main host cfg (boot rx0 opens))) = false.
Proof.
  intros Hret.
  pose proof (main_ends host cfg (boot rx0 opens) (boot_idle rx0 opens)) as H.
  destruct (main host cfg (boot rx0 opens)) as [o w'].
  cbn [fst snd] in *. subst o. exact (proj1 H).
Qed.

(** ** What [main] writes to the device *)

Lemma mode_known_poke (m : list byte) (b : byte) :
  mode_known m -> b = x01 \/ b = x02 -> mode_known (poke m 3 b).
Proof.
  unfold mode_known. intros [-> | [-> | ->]] [-> | ->]; cbn [poke]; auto.
Qed.

Lemma mode_known_command (m : list byte) :
  mode_known m -> In (buffer m MODE_CMD_LENGTH) known_commands.
Proof.
  unfold mode_known. intros [-> | [-> | ->]]; cbn; auto.
Qed.

Lemma commands_known_emit (e : event) (w : world) :
  event_known e -> commands_known w -> commands_known (emit e w).
Proof.
  intros He [Hm Ht]. split; [exact Hm|]. cbn [trace emit].
  apply Forall_app. split; [exact Ht|]. now constructor.
Qed.

(** facts on the commands of a world built from another *)
Ltac known :=
  intros; cbv beta in *;
  repeat match goal with
         | H : _ /\ _ |- _ => destruct H
         end;
  repeat match goal with
         | |- _ /\ _ => split
         | |- forall _, _ => intro
         | |- if ?b then _ else _ => destruct b
         end;
  repeat apply commands_known_emit;
  try assumption; try exact I;
  try (cbn; tauto).

Ltac keep_known :=
  let Inv := constr:(commands_known) in keep_on_by ltac:(fun _ => known) Inv.


Lemma mode_exchange_known :
  hoare commands_known mode_exchange (fun _ => commands_known)
        (fun _ => commands_known) (fun _ => commands_known).
Proof.
  unfold mode_exchange.
  eapply hoare_bind
    with (Mid := fun m w => commands_known w /\ mode_known m).
  { by_rule. intros w Hw. split; [exact Hw|apply Hw]. }
  intros m.
  eapply hoare_bind with (Mid := fun _ => commands_known).
  { by_rule. intros w [Hw Hm]. cbv beta. destruct (port_open w); [|exact Hw].
    apply commands_known_emit; [|exact Hw].
    now apply mode_known_command. }
  intros _. keep_known.
Qed.

Lemma set_mode3_known (b : byte) :
  b = x01 \/ b = x02 ->
  hoare commands_known (set_mode3 b) (fun _ => commands_known)
        (fun _ => commands_known) (fun _ => commands_known).
Proof.
  intros Hb. by_rule. intros w [Hm Ht]. split; [|exact Ht].
  now apply mode_known_poke.
Qed.

Lemma set_mode3_active_known :
  hoare commands_known (set_mode3 x01) (fun _ => commands_known)
        (fun _ => commands_known) (fun _ => commands_known).
Proof. apply set_mode3_known. now left. Qed.

Lemma set_mode3_continuous_known :
  hoare commands_known (set_mode3 x02) (fun _ => commands_known)
        (fun _ => commands_known) (fun _ => commands_known).
Proof. apply set_mode3_known. now right. Qed.

#[local] Hint Resolve mode_exchange_known set_mode3_active_known
  set_mode3_continuous_known : hoare_db.

Lemma close_if_open_known :
  hoare commands_known close_if_open (fun _ => commands_known)
        (fun _ => commands_known) (fun _ => commands_known).
Proof.
  unfold close_if_open.
  eapply hoare_bind with (Mid := fun _ => commands_known); [keep_known|].
  intros o. keep_known.
Qed.

#[local] Hint Resolve close_if_open_known : hoare_db.

Lemma open_or_return_known (port : string) :
  hoare commands_known (open_or_return port) (fun _ => commands_known)
        (fun _ => commands_known) (fun _ => commands_known).
Proof.
  unfold open_or_return.
  eapply hoare_bind with (Mid := fun _ => commands_known).
  { by_rule. intros w Hw. cbv beta. destruct (port_open w).
    - now apply commands_known_emit.
    - destruct (open_results w) as [|[|] rest];
        now apply commands_known_emit. }
  intros opened. keep_known.
Qed.

Lemma set_options_known (baud : Z) :
  hoare commands_known (set_options baud) (fun _ => commands_known)
        (fun _ => commands_known) (fun _ => commands_known).
Proof. unfold set_options. keep_known. Qed.

#[local] Hint Resolve open_or_return_known set_options_known : hoare_db.

Lemma check_mode_known (port : string) (baud : Z) :
  hoare commands_known (check_mode port baud) (fun _ => commands_known)
        (fun _ => commands_known) (fun _ => commands_known).
Proof.
  unfold check_mode.
  eapply hoare_bind with (Mid := fun _ => commands_known);
    [apply mode_exchange_known|].
  intros ok.
  eapply hoare_bind with (Mid := fun _ => commands_known).
  { destruct ok; cbn [negb]; keep_known. }
  intros flag. keep_known.
Qed.

#[local] Hint Resolve check_mode_known : hoare_db.

Lemma handshake_known (port : string) (baud : Z) (cfg : config) :
  hoare commands_known (handshake port baud cfg) (fun _ => commands_known)
        (fun _ => commands_known) (fun _ => commands_known).
Proof.
  unfold handshake, stop. keep_known.
Qed.

Lemma iteration_known (host : byte_order) (l : locals) :
  hoare commands_known (iteration host l) (fun _ => commands_known)
        (fun _ => commands_known) (fun _ => commands_known).
Proof.
  unfold iteration.
  eapply hoare_bind with (Mid := fun _ => commands_known); [keep_known|].
  intros bytes. cbv zeta.
  eapply hoare_bind with (Mid := fun _ => commands_known); [keep_known|].
  intros ok. destruct ok; cbn [negb].
  - destruct (decode host _) as [f|]; [|intros w Hw; exact Hw].
    keep_known.
  - keep_known.
Qed.

Lemma stream_loop_known (host : byte_order) (oks : list bool) :
  forall l, hoare commands_known (stream_loop host oks l)
                  (fun _ => commands_known) (fun _ => commands_known)
                  (fun _ => commands_known).
Proof.
  induction oks as [|[|] oks IH]; intros l; cbn [stream_loop].
  - keep_known.
  - eapply hoare_bind with (Mid := fun _ => commands_known);
      [apply iteration_known|]. intros l'. apply IH.
  - keep_known.
Qed.

Lemma start_streaming_known (frame_id : string) (delay : double) (t0 : Time) :
  hoare commands_known (start_streaming frame_id delay t0)
        (fun _ => commands_known) (fun _ => commands_known)
        (fun _ => commands_known).
Proof. unfold start_streaming. keep_known. Qed.

#[local] Hint Resolve handshake_known stream_loop_known
  start_streaming_known : hoare_db.

Lemma main_known (host : byte_order) (cfg : config) :
  hoare commands_known (main host cfg) (fun _ => commands_known)
        (fun _ => commands_known) (fun _ => commands_known).
Proof.
  unfold main, stop. destruct (param_port cfg) as [port|]; keep_known.
Qed.

Lemma boot_known (rx0 : list byte) (opens : list bool) :
  commands_known (boot rx0 opens).
Proof. split; [now left|constructor]. Qed.

(** X15. Whatever the device answers, every sequence of bytes that a run
    of [main] writes to the port is one of six commands: stop, the mode
    command with 0, 1 or 2 as its last byte, the preset, or the reset of
    the timer. *)
Theorem only_known_commands_written (host : byte_order) (cfg : config)
        (rx0 : list byte) (opens : list bool) (bytes : list byte) :
  In (Written bytes) (trace (snd (main host cfg (boot rx0 opens)))) ->
  In bytes known_commands.
Proof.
  intros Hin.
  pose proof (main_known host cfg (boot rx0 opens) (boot_known rx0 opens))
    as H.
  assert (Hw : commands_known (snd (main host cfg (boot rx0 opens)))).
  { destruct (main host cfg (boot rx0 opens)) as [[a|c| | |] w'];
      exact H. }
  destruct Hw as [_ Ht]. rewrite Forall_forall in Ht.
  exact (Ht _ Hin).
Qed.

(** ** The dialogue of the start-up *)

Lemma app_same_length {A : Type} (a b c d : list A) :
  a ++ b = c ++ d -> List.length a = List.length c -> a = c /\ b = d.
Proof.
  revert c. induction a as [|x a IH]; intros [|y c] H Hlen;
    try discriminate; [now split|].
  cbn in H. injection H as -> H. injection Hlen as Hlen.
  destruct (IH c H Hlen) as [-> ->]. now split.
Qed.

Lemma hoare_call_validate_checksum_of (data : list byte) (length : Z)
      (ok : bool) (Post : bool -> world -> Prop) (Exit : Z -> world -> Prop)
      (Stop : halt -> world -> Prop) :
  validate_checksum data length = Some ok ->
  hoare (fun w => Post ok (with_call (data, length) w))
        (call_validate_checksum data length) Post Exit Stop.
Proof.
  intros Hv w Hw. unfold call_validate_checksum. rewrite Hv. exact Hw.
Qed.

Lemma hoare_load_of (a : list byte) (i : Z) (b : byte)
      (Post : byte -> world -> Prop) (Exit : Z -> world -> Prop)
      (Stop : halt -> world -> Prop) :
  index a i = Some b ->
  hoare (Post b) (load a i) Post Exit Stop.
Proof. intros Hi w Hw. unfold load. rewrite Hi. exact Hw. Qed.

(** facts on a point of the dialogue reached from another *)
Ltac talk :=
  intros; cbv beta in *; unfold talking in *;
  repeat match goal with
         | H : _ /\ _ |- _ => destruct H
         end;
  repeat match goal with
         | H : port_open _ = _ |- _ => rewrite ?H
         end;
  cbv iota;
  repeat split; intros;
  cbn [port_open trace rx mode reply emit with_port with_rx with_reply
       with_call with_mode] in *;
  unfold written in *; rewrite ?flat_map_app; cbn [flat_map app];
  repeat match goal with
         | H : flat_map _ _ = _ |- _ => rewrite H
         | H : mode _ = _ |- _ => rewrite H
         end;
  subst; rewrite ?app_nil_r, <- ?app_assoc; cbn [app];
  auto.

Ltac keep_talking Inv := keep_on_by ltac:(fun _ => talk) Inv.

Section Dialogue.
Context (Exit : Z -> world -> Prop) (Stop : halt -> world -> Prop).
Context (cs : list (list byte)) (m r0 : list byte).

Lemma write_talks (bytes input : list byte) :
  hoare (talking cs input m r0) (write bytes)
        (fun _ => talking (cs ++ [bytes]) input m r0) Exit Stop.
Proof. by_rule. talk. Qed.

Lemma read_talks (n : nat) (bytes rest : list byte) :
  List.length bytes = n ->
  hoare (talking cs (bytes ++ rest) m r0) (read n)
        (fun b w => b = bytes /\ talking cs rest m r0 w) Exit Stop.
Proof.
  intros Hlen w Hw. unfold read.
  destruct Hw as (Hopen & Hcs & Hrx & Hm & Hr).
  pose proof (read_exact n w bytes rest Hopen Hrx Hlen) as Hrun.
  unfold read in Hrun. rewrite Hrun. split; [reflexivity|].
  repeat split; assumption.
Qed.

Lemma read_reply_talks (r rest : list byte) :
  List.length r = 4%nat ->
  hoare (talking cs (r ++ rest) m r0) read_reply
        (fun _ => talking cs rest m r) Exit Stop.
Proof.
  intros Hlen. unfold read_reply.
  eapply hoare_bind; [apply (read_talks _ r rest Hlen)|].
  intros bytes w [Hb Hw]. subst bytes. talk.
Qed.

(** a reply is read into [reply] and validated *)
Lemma validated_reply_talks (r rest : list byte) (ok : bool) :
  List.length r = 4%nat -> validate_checksum r 4 = Some ok ->
  hoare (talking cs (r ++ rest) m r0)
        (bind read_reply
              (fun _ => bind get_reply
                             (fun r => call_validate_checksum r REPLY_LENGTH)))
        (fun b w => b = ok /\ talking cs rest m r w) Exit Stop.
Proof.
  intros Hlen Hv.
  eapply hoare_bind; [apply (read_reply_talks r rest Hlen)|]. intros [].
  eapply hoare_bind with (Mid := fun b w => b = r /\ talking cs rest m r w).
  { by_rule. talk. }
  intros b w [Hb Hw]. subst b.
  apply (hoare_call_validate_checksum_of r 4 ok _ Exit Stop Hv w). talk.
Qed.

End Dialogue.

(** an exchange: the command in [mode] is written, the reply validated *)
Lemma mode_exchange_talks (Exit : Z -> world -> Prop)
      (Stop : halt -> world -> Prop) (cs : list (list byte))
      (m r0 r rest : list byte) (ok : bool) :
  List.length m = 4%nat ->
  List.length r = 4%nat -> validate_checksum r 4 = Some ok ->
  hoare (talking cs (r ++ rest) m r0) mode_exchange
        (fun b w => b = ok /\ talking (cs ++ [m]) rest m r w) Exit Stop.
Proof.
  intros Hm Hlen Hv. unfold mode_exchange.
  eapply hoare_bind
    with (Mid := fun b w => b = m /\ talking cs (r ++ rest) m r0 w).
  { by_rule. talk. }
  intros b.
  eapply hoare_bind with (Mid := fun _ => talking (cs ++ [m]) (r ++ rest) m r0).
  { intros w [Hb Hw]. subst b.
    replace (buffer m MODE_CMD_LENGTH) with m.
    - now apply write_talks.
    - unfold buffer. symmetry. apply firstn_all2.
      rewrite Hm. change (Z.to_nat MODE_CMD_LENGTH) with 4%nat. lia. }
  intros _. now apply validated_reply_talks.
Qed.

(** the three statements of a failure are not run after a valid reply *)
Lemma valid_reply_goes_on (Exit : Z -> world -> Prop)
      (Stop : halt -> world -> Prop) (P : world -> Prop) (ok : bool)
      (failure : stmt unit) :
  hoare (fun w => ok = true /\ P w) (when (negb ok) failure) (fun _ => P)
        Exit Stop.
Proof. intros w [-> Hw]. exact Hw. Qed.

(** a fact on a value bound earlier *)
Lemma hoare_assume {A : Type} (F : Prop) (Pre : world -> Prop) (m : stmt A)
      (Post : A -> world -> Prop) (Exit : Z -> world -> Prop)
      (Stop : halt -> world -> Prop) :
  (F -> hoare Pre m Post Exit Stop) ->
  hoare (fun w => F /\ Pre w) m Post Exit Stop.
Proof. intros H w [HF Hw]. exact (H HF w Hw). Qed.

(** the mode query, answered at once by a valid reply *)
Lemma check_mode_talks (Exit : Z -> world -> Prop)
      (Stop : halt -> world -> Prop) (port : string) (baud : Z)
      (cs : list (list byte)) (m r0 q rest : list byte) :
  List.length m = 4%nat ->
  List.length q = 4%nat -> validate_checksum q 4 = Some true ->
  hoare (talking cs (q ++ rest) m r0) (check_mode port baud)
        (fun _ => talking (cs ++ [m]) rest m q) Exit Stop.
Proof.
  intros Hm Hlen Hv. unfold check_mode.
  eapply hoare_bind; [now apply (mode_exchange_talks _ _ cs m r0 q rest true)|].
  intros ok w [Hok Hw]. subst ok. exact Hw.
Qed.

(** lines 144-245 when every reply passes validation: [active] tells
    whether byte 2 of the reply to the query is 1 *)
Lemma handshake_talks (Exit : Z -> world -> Prop)
      (Stop : halt -> world -> Prop) (port : string) (baud : Z)
      (cfg : config) (cs : list (list byte))
      (r0 q a p c t rest : list byte) (q2 : byte) :
  List.length q = 4%nat -> List.length a = 4%nat ->
  List.length p = 4%nat -> List.length c = 4%nat -> List.length t = 7%nat ->
  validate_checksum q 4 = Some true -> validate_checksum a 4 = Some true ->
  validate_checksum p 4 = Some true -> validate_checksum c 4 = Some true ->
  index q 2 = Some q2 ->
  let active := u8 q2 =? 1 in
  hoare (talking cs
           (q ++ (if active then [] else a) ++ p ++ c ++ t ++ rest)
           mode_init r0)
        (handshake port baud cfg)
        (fun t0 w =>
           t0 = now cfg /\
           talking (cs ++ startup_commands active) rest
                   [xd4; xa3; x47; x02] c w)
        Exit Stop.
Proof.
  intros Hq Ha Hp Hc Ht Hvq Hva Hvp Hvc Hq2 active.
  assert (Hactive : (u8 q2 =? 1) = active) by reflexivity.
  clearbody active.
  unfold handshake. cbv beta zeta.
  change (buffer stop STOP_CMD_LENGTH) with stop.
  change (buffer [xd6; xc6; x6b; xcc] 4) with [xd6; xc6; x6b; xcc].
  change (buffer [xd7; xc1; x29; x01; x00; x00; x00; x00] 8)
    with [xd7; xc1; x29; x01; x00; x00; x00; x00].
  set (input := (if active then [] else a) ++ p ++ c ++ t ++ rest).
  eapply hoare_bind; [apply write_talks|]. intros [].
  eapply hoare_bind
    with (Mid := fun _ => talking (cs ++ [stop]) (q ++ input) mode_init r0);
    [by_rule; talk|]. intros _.
  eapply hoare_bind
    with (Mid := fun _ => talking (cs ++ [stop]) (q ++ input) mode_init r0);
    [by_rule; talk|]. intros _.
  eapply hoare_bind; [now apply check_mode_talks|]. intros [].
  (* If we are not in active mode, change it *)
  eapply hoare_bind
    with (Mid := fun r w =>
                   r = q /\ talking ((cs ++ [stop]) ++ [mode_init]) input
                                    mode_init q w);
    [by_rule; talk|].
  intros r.
  eapply hoare_bind
    with (Mid := fun b w =>
                   b = q2 /\ talking ((cs ++ [stop]) ++ [mode_init]) input
                                     mode_init q w).
  { apply hoare_assume. intros ->.
    eapply hoare_pre; [apply (hoare_load_of q 2 q2); exact Hq2|]. talk. }
  intros r2. subst input.
  eapply hoare_bind
    with (Mid := fun _ =>
                   talking (cs ++ [stop; mode_init]
                               ++ (if active then []
                                   else [[xd4; xa3; x47; x01]]))
                           (p ++ c ++ t ++ rest)
                           (if active then mode_init
                            else [xd4; xa3; x47; x01])
                           (if active then q else a)).
  { apply hoare_assume. intros ->. rewrite Hactive.
    destruct active; cbn [negb when app].
    - by_rule. talk.
    - eapply hoare_bind
        with (Mid := fun _ =>
                       talking ((cs ++ [stop]) ++ [mode_init])
                               (a ++ p ++ c ++ t ++ rest)
                               [xd4; xa3; x47; x01] q);
        [by_rule; talk|]. intros _.
      eapply hoare_bind;
        [apply (mode_exchange_talks _ _ _ _ _ a _ true); auto|]. intros ok.
      eapply hoare_pre; [apply valid_reply_goes_on|]. talk. }
  intros _.
  set (cs1 := cs ++ [stop; mode_init]
                 ++ (if active then [] else [[xd4; xa3; x47; x01]])).
  set (m1 := if active then mode_init else [xd4; xa3; x47; x01]).
  assert (Hm1 : poke m1 3 x02 = [xd4; xa3; x47; x02])
    by (subst m1; now destruct active).
  clearbody m1.
  set (r1 := if active then q else a). clearbody r1.
  (* Set the continous preset mode *)
  eapply hoare_bind; [apply write_talks|]. intros [].
  eapply hoare_bind; [now apply (read_reply_talks _ _ _ _ _ p)|].
  intros [].
  eapply hoare_bind
    with (Mid := fun r w =>
                   r = p /\ talking (cs1 ++ [[xd6; xc6; x6b; xcc]])
                                    (c ++ t ++ rest) m1 p w);
    [by_rule; talk|].
  intros r'.
  eapply hoare_bind
    with (Mid := fun ok w =>
                   ok = true /\ talking (cs1 ++ [[xd6; xc6; x6b; xcc]])
                                        (c ++ t ++ rest) m1 p w).
  { apply hoare_assume. intros ->.
    eapply hoare_pre;
      [apply (hoare_call_validate_checksum_of p 4 true); exact Hvp|].
    talk. }
  intros ok.
  eapply hoare_bind; [apply valid_reply_goes_on|]. intros [].
  (* Set the mode to continous output *)
  eapply hoare_bind
    with (Mid := fun _ =>
                   talking (cs1 ++ [[xd6; xc6; x6b; xcc]])
                           (c ++ t ++ rest) [xd4; xa3; x47; x02] p);
    [by_rule; talk|].
  intros _.
  eapply hoare_bind;
    [apply (mode_exchange_talks _ _ _ _ _ c _ true); auto|]. intros ok'.
  eapply hoare_bind; [apply valid_reply_goes_on|]. intros [].
  (* Set Timer *)
  eapply hoare_bind; [apply write_talks|]. intros [].
  eapply hoare_bind; [now apply (read_talks _ _ _ _ _ 7%nat t)|].
  intros bytes. by_rule. subst cs1. unfold startup_commands. talk.
Qed.

(** X16. A start-up whose replies all pass validation completes and
    writes, in this order: stop, the mode query, the command for the active
    mode exactly when byte 2 of the reply to the query is not 1, the
    preset, the command for continuous output, and the reset of the timer.
    Each command but the first is followed by a read of its reply; the 7
    bytes that answer the reset of the timer are read and not examined. *)
Theorem startup_dialogue (port : string) (baud : Z) (cfg : config)
        (w : world) (q a p c t rest : list byte) (q2 : byte) :
  port_open w = true -> mode w = mode_init ->
  List.length q = 4%nat -> List.length a = 4%nat ->
  List.length p = 4%nat -> List.length c = 4%nat -> List.length t = 7%nat ->
  validate_checksum q 4 = Some true -> validate_checksum a 4 = Some true ->
  validate_checksum p 4 = Some true -> validate_checksum c 4 = Some true ->
  index q 2 = Some q2 ->
  let active := u8 q2 =? 1 in
  rx w = q ++ (if active then [] else a) ++ p ++ c ++ t ++ rest ->
  fst (handshake port baud cfg w) = Done (now cfg) /\
  written (trace (snd (handshake port baud cfg w)))
  = written (trace w) ++ startup_commands active /\
  rx (snd (handshake port baud cfg w)) = rest.
Proof.
  intros Hopen Hmode Hq Ha Hp Hc Ht Hvq Hva Hvp Hvc Hq2 active Hrx.
  pose proof (handshake_talks (fun _ _ => False) (fun _ _ => False)
                port baud cfg (written (trace w)) (reply w)
                q a p c t rest q2 Hq Ha Hp Hc Ht Hvq Hva Hvp Hvc Hq2 w) as H.
  cbv zeta in H. fold active in H.
  assert (Hw : talking (written (trace w))
                 (q ++ (if active then [] else a) ++ p ++ c ++ t ++ rest)
                 mode_init (reply w) w) by (repeat split; assumption).
  specialize (H Hw).
  destruct (handshake port baud cfg w) as [[t0|code| | |] w'];
    try contradiction.
  destruct H as (-> & _ & Hcs & Hrest & _).
  cbn [fst snd]. auto.
Qed.

(** ** A device that does not answer *)

Lemma open_or_return_talks (Exit : Z -> world -> Prop)
      (Stop : halt -> world -> Prop) (port : string) (opens : list bool)
      (input m r : list byte) :
  hoare (fun w => port_open w = false /\ open_results w = true :: opens /\
                  written (trace w) = [] /\ rx w = input /\
                  mode w = m /\ reply w = r)
        (open_or_return port) (fun _ => talking [] input m r) Exit Stop.
Proof.
  unfold open_or_return.
  eapply hoare_bind
    with (Mid := fun opened w => opened = true /\ talking [] input m r w).
  { by_rule. intros w (Hport & Hopens & Hw). cbv beta.
    rewrite Hport, Hopens. split; [reflexivity|]. talk. }
  intros opened.
  eapply hoare_bind with (Mid := fun _ => talking [] input m r).
  { apply hoare_assume. intros ->. cbn [negb when]. by_rule. auto. }
  intros _.
  eapply hoare_bind
    with (Mid := fun o w => o = true /\ talking [] input m r w).
  { by_rule. intros w Hw. split; [apply Hw|exact Hw]. }
  intros o. apply hoare_assume. intros ->. cbn [negb when]. by_rule. auto.
Qed.

Lemma set_options_talks (Exit : Z -> world -> Prop)
      (Stop : halt -> world -> Prop) (baud : Z) (cs : list (list byte))
      (input m r : list byte) :
  hoare (talking cs input m r) (set_options baud)
        (fun _ => talking cs input m r) Exit Stop.
Proof. unfold set_options. keep_talking (talking cs input m r). Qed.

(** an exchange with fewer than four bytes to read: the command is
    written and the read waits *)
Lemma mode_exchange_waits (Post : bool -> world -> Prop)
      (Exit : Z -> world -> Prop) (cs : list (list byte))
      (input m r : list byte) :
  List.length m = 4%nat -> (List.length input < 4)%nat ->
  hoare (talking cs input m r) mode_exchange Post Exit
        (fun h w => h = Blocks /\ written (trace w) = cs ++ [m]).
Proof.
  intros Hm Hshort. unfold mode_exchange.
  eapply hoare_bind
    with (Mid := fun b w => b = m /\ talking cs input m r w);
    [by_rule; talk|].
  intros b.
  eapply hoare_bind with (Mid := fun _ => talking (cs ++ [m]) input m r).
  { apply hoare_assume. intros ->.
    replace (buffer m MODE_CMD_LENGTH) with m.
    - apply write_talks.
    - unfold buffer. symmetry. apply firstn_all2.
      rewrite Hm. change (Z.to_nat MODE_CMD_LENGTH) with 4%nat. lia. }
  intros _.
  eapply hoare_bind with (Mid := fun _ _ => False); [|intros; apply hoare_false].
  by_rule. intros w (Hopen & Hcs & Hrx & _). cbv beta. rewrite Hopen.
  split; [auto|].
  intros bytes rest Hsplit Hlen. rewrite Hrx in Hsplit.
  apply (f_equal (@List.length byte)) in Hsplit.
  rewrite length_app in Hsplit.
  change (Z.to_nat REPLY_LENGTH) with 4%nat in Hlen. lia.
Qed.

(** X17. A device that sends fewer than four bytes: once the port is open
    [main] writes the stop command and the mode query, and waits in the
    read of the reply; there is no timeout. *)
Theorem silent_device_blocks (host : byte_order) (cfg : config)
        (port : string) (rx0 : list byte) (opens : list bool) :
  param_port cfg = Some port -> (List.length rx0 < 4)%nat ->
  fst (main host cfg (boot rx0 (true :: opens))) = Blocked /\
  written (trace (snd (main host cfg (boot rx0 (true :: opens)))))
  = [stop; mode_init].
Proof.
  intros Hport Hshort.
  assert (H : hoare (fun w => w = boot rx0 (true :: opens)) (main host cfg)
                    (fun _ _ => False) (fun _ _ => False)
                    (fun h w => h = Blocks /\
                                written (trace w) = [] ++ [stop] ++ [mode_init])).
  { unfold main. rewrite Hport. cbv zeta.
    eapply hoare_bind
      with (Mid := fun _ => talking [] rx0 mode_init (repeat x00 4)).
    { eapply hoare_pre; [apply open_or_return_talks with (opens := opens)|].
      intros w ->. repeat split. }
    intros _.
    eapply hoare_bind; [apply set_options_talks|]. intros [].
    eapply hoare_bind with (Mid := fun _ _ => False);
      [|intros; apply hoare_false].
    unfold handshake. change (buffer stop STOP_CMD_LENGTH) with stop.
    eapply hoare_bind; [apply write_talks|]. intros [].
    eapply hoare_bind
      with (Mid := fun _ => talking ([] ++ [stop]) rx0 mode_init
                                    (repeat x00 4));
      [by_rule; talk|]. intros _.
    eapply hoare_bind
      with (Mid := fun _ => talking ([] ++ [stop]) rx0 mode_init
                                    (repeat x00 4));
      [by_rule; talk|]. intros _.
    eapply hoare_bind with (Mid := fun _ _ => False);
      [|intros; apply hoare_false].
    unfold check_mode.
    eapply hoare_bind with (Mid := fun _ _ => False);
      [|intros; apply hoare_false].
    now apply mode_exchange_waits. }
  specialize (H _ eq_refl).
  destruct (main host cfg (boot rx0 (true :: opens))) as [[a|c| | |] w'];
    try contradiction; try (destruct H; discriminate).
  split; [reflexivity|apply H].
Qed.

(** X18. Without a [port] parameter, or when the port cannot be opened,
    [main] returns -1 and has written nothing to the device. *)
Theorem start_refused (host : byte_order) (cfg : config) (rx0 : list byte)
        (opens : list bool) :
  param_port cfg = None \/ hd false opens = false ->
  fst (main host cfg (boot rx0 opens)) = Returned (-1) /\
  written (trace (snd (main host cfg (boot rx0 opens)))) = [].
Proof.
  intros H. unfold main.
  destruct (param_port cfg) as [port|]; [|split; reflexivity].
  destruct H as [H|H]; [discriminate|].
  destruct opens as [|[|] opens]; try discriminate; split; reflexivity.
Qed.

End Runs.

(** ** Sample runs *)

Lemma stream_loop_publishes_valid_frames_witness :
  exists l' w',
    stream_loop LittleEndian [true; true] sample_locals
                (streaming_world (sample_frame ++ damaged_frame ++ []))
      = (Done l', w') /\
    List.length (samples (trace w')) = 2%nat.
Proof.
  destruct (stream_loop_publishes_valid_frames LittleEndian
              [sample_frame; damaged_frame] sample_locals
              (streaming_world (sample_frame ++ damaged_frame ++ [])) [])
    as (l' & w' & Hrun & _ & Hsamples).
  - reflexivity.
  - reflexivity.
  - repeat constructor.
  - exists l', w'. split; [exact Hrun|]. rewrite Hsamples.
    vm_compute. reflexivity.
Defined.

(** a count of [2^32 - 62500] is published one second before [t0] *)
Lemma timer_with_top_bit_is_negative_witness :
  validate_checksum wrapped_frame 79 = Some true /\
  exists imu mag l' w',
    iteration LittleEndian sample_locals (streaming_world wrapped_frame)
      = (Done l', w') /\
    trace w' = [PublishedImu imu; PublishedMag mag] /\
    stamp (imu_header imu) = 4000000000 /\
    stamp (mag_header mag) = 4000000000.
Proof.
  assert (Hsum : validate_checksum wrapped_frame 79 = Some true)
    by (vm_compute; reflexivity).
  split; [exact Hsum|].
  destruct (timer_with_top_bit_is_negative LittleEndian sample_locals
              (streaming_world wrapped_frame) wrapped_frame [])
    as (_ & imu & mag & l' & w' & Hrun & Htrace & Himu & Hmag);
    [reflexivity|reflexivity|reflexivity|exact Hsum|vm_compute; discriminate|].
  exists imu, mag, l', w'. split; [exact Hrun|]. split; [exact Htrace|].
  split; [rewrite Himu|rewrite Hmag]; vm_compute; reflexivity.
Defined.

Lemma failure_exit_means_no_sample_witness :
  samples (trace (snd (main LittleEndian sample_config
                            (boot (reply_damaged ++ reply_damaged) [true; true]))))
  = [].
Proof.
  apply (failure_exit_means_no_sample LittleEndian sample_config
           (reply_damaged ++ reply_damaged) [true; true]).
  vm_compute. reflexivity.
Defined.

Lemma port_closed_on_return_witness :
  port_open (snd (main LittleEndian sample_config
                       (boot sample_input [true; true]))) = false.
Proof.
  apply (port_closed_on_return LittleEndian sample_config sample_input
           [true; true] 0).
  vm_compute. reflexivity.
Defined.

Lemma only_known_commands_written_witness :
  In [xfa; x75; xb4] known_commands.
Proof.
  apply (only_known_commands_written LittleEndian sample_config
           (reply_damaged ++ reply_damaged) [true; true] [xfa; x75; xb4]).
  cbv -[nanosecond_clock double_geometry]. do 5 right. left. reflexivity.
Defined.

Lemma startup_dialogue_witness :
  written (trace (snd (handshake "/dev/ttyUSB0" 115200 sample_config
                         (opened_world
                            (reply_idle ++ reply_active ++ reply_idle
                               ++ reply_idle
                               ++ [xd7; x00; x00; x00; x00; x00; xd7]
                               ++ sample_frame)))))
  = startup_commands false.
Proof.
  apply (startup_dialogue "/dev/ttyUSB0" 115200 sample_config
           (opened_world
              (reply_idle ++ reply_active ++ reply_idle ++ reply_idle
                 ++ [xd7; x00; x00; x00; x00; x00; xd7] ++ sample_frame))
           reply_idle reply_active reply_idle reply_idle
           [xd7; x00; x00; x00; x00; x00; xd7] sample_frame x00);
    reflexivity.
Defined.

Lemma silent_device_blocks_witness :
  fst (main LittleEndian sample_config (boot [xd4; x2d] [true])) = Blocked.
Proof.
  apply (silent_device_blocks LittleEndian sample_config "/dev/ttyUSB0"
           [xd4; x2d] []).
  - reflexivity.
  - cbn. lia.
Defined.

Lemma start_refused_witness :
  fst (main LittleEndian sample_config (boot sample_input [false; true]))
  = Returned (-1) /\
  written (trace (snd (main LittleEndian sample_config
                            (boot sample_input [false; true])))) = [].
Proof.
  apply (start_refused LittleEndian sample_config sample_input [false; true]).
  right. reflexivity.
Defined.
